(** * Kaleidoscope front end: lexer, AST and parser of
      [01-Implementing_a_Parser_and_AST/main.cpp]

    A shallow embedding of the tokenizer [gettok], of the AST classes and
    of the recursive-descent / operator-precedence parser, with the
    process-wide variables of the C++ file ([LastChar], [IdentifierStr],
    [NumVal], [CurTok], [BinopPrecedence]) gathered in one explicit
    [state] record that every function threads through.

    Conventions.
    - [int] values (characters returned by [getchar], tokens, precedences)
      are [Z]; the only arithmetic on them is [TokPrec + 1].
    - the character classes of <cctype> are those of the "C" locale (the
      program never calls [setlocale]).
    - standard input is a finite [string]; once it is exhausted [getchar]
      keeps answering [EOF].
    - [double] is Rocq's binary64 [float]; [strtod] is correctly rounded.
    - a null [unique_ptr] is [None]. *)

From Stdlib Require Import ZArith Bool List Ascii String Lia.
From Stdlib Require Import Floats.
From stdpp Require Import base option strings gmap.

Import ListNotations.
Local Open Scope string_scope.
Local Open Scope Z_scope.

(* ===================================================================== *)
(** * <cctype> in the "C" locale *)
(* ===================================================================== *)

Module CType.

Definition EOF : Z := -1.

Definition between (lo hi c : Z) : bool := (lo <=? c) && (c <=? hi).

(** space, and the five controls \t \n \v \f \r *)
Definition isspace (c : Z) : bool := (c =? 32) || between 9 13 c.
Definition isupper (c : Z) : bool := between 65 90 c.
Definition islower (c : Z) : bool := between 97 122 c.
Definition isalpha (c : Z) : bool := isupper c || islower c.
Definition isdigit (c : Z) : bool := between 48 57 c.
Definition isalnum (c : Z) : bool := isalpha c || isdigit c.
Definition isascii (c : Z) : bool := between 0 127 c.

(** The value [getchar] returns for a byte: an [unsigned char] as [int]. *)
Definition int_of_char (a : ascii) : Z := Z.of_N (N_of_ascii a).

(** Conversion [int -> char], as in [IdentifierStr = LastChar] or in the
    [char Op] argument of [BinaryExprAST]: the low eight bits. *)
Definition char_of_int (c : Z) : ascii := ascii_of_N (Z.to_N (c mod 256)).

End CType.
Import CType.

(* ===================================================================== *)
(** * [strtod] on the strings the lexer builds *)
(* ===================================================================== *)

Module Strtod.

Definition digit_val (a : ascii) : option Z :=
  let c := int_of_char a in
  if isdigit c then Some (c - 48) else None.

(** Longest run of decimal digits at the head of [s]: the number they
    denote after [acc], how many there are, and what follows. *)
Fixpoint digits (acc : Z) (n : nat) (s : string) : Z * nat * string :=
  match s with
  | EmptyString => (acc, n, s)
  | String a r =>
      match digit_val a with
      | Some d => digits (10 * acc + d) (S n) r
      | None => (acc, n, s)
      end
  end.

(** [m / 10^k] rounded to the nearest binary64, ties to even: what a
    correctly rounding [strtod] returns for a decimal numeral with
    digits [m] of which the last [k] follow the point. *)
Definition decimal_to_double (m : Z) (k : nat) : float :=
  match m with
  | Zpos p =>
      SF2Prim (SFdiv prec emax
                 (S754_finite false p 0)
                 (S754_finite false (Z.to_pos (10 ^ Z.of_nat k)) 0))
  | _ => 0%float
  end.

(** [strtod(str, nullptr)] for [str] made of digits and dots only (the
    lexer passes nothing else): the longest prefix of the form
    digits [. digits] holding at least one digit is converted; when there
    is none no conversion is performed and the result is zero. *)
Definition strtod (str : string) : float :=
  let '(ip, ni, r) := digits 0 0 str in
  let '(m, nf) :=
    match r with
    | String "."%char r' =>
        let '(m, n, _) := digits ip ni r' in (m, (n - ni)%nat)
    | _ => (ip, 0%nat)
    end in
  decimal_to_double m nf.

End Strtod.
Import Strtod.

(* ===================================================================== *)
(** * Program state *)
(* ===================================================================== *)

(** The file-scope and function-scope [static] variables of main.cpp,
    with the two streams the program talks to. *)
Record state : Type := mkState {
  stdin : string;                   (* what [getchar] has not read yet *)
  stderr : list string;             (* messages passed to [LogError] *)
  LastChar : Z;                     (* [static int LastChar] of [gettok] *)
  IdentifierStr : string;
  NumVal : float;
  CurTok : Z;
  BinopPrecedence : gmap ascii Z    (* [std::map<char, int>] *)
}.

Definition set_input (c : Z) (rest : string) (s : state) : state :=
  mkState rest (stderr s) c (IdentifierStr s) (NumVal s) (CurTok s)
          (BinopPrecedence s).

Definition set_IdentifierStr (x : string) (s : state) : state :=
  mkState (stdin s) (stderr s) (LastChar s) x (NumVal s) (CurTok s)
          (BinopPrecedence s).

Definition set_NumVal (v : float) (s : state) : state :=
  mkState (stdin s) (stderr s) (LastChar s) (IdentifierStr s) v (CurTok s)
          (BinopPrecedence s).

Definition set_CurTok (t : Z) (s : state) : state :=
  mkState (stdin s) (stderr s) (LastChar s) (IdentifierStr s) (NumVal s) t
          (BinopPrecedence s).

Definition set_BinopPrecedence (m : gmap ascii Z) (s : state) : state :=
  mkState (stdin s) (stderr s) (LastChar s) (IdentifierStr s) (NumVal s)
          (CurTok s) m.

Definition log (msg : string) (s : state) : state :=
  mkState (stdin s) (stderr s ++ [msg]) (LastChar s) (IdentifierStr s)
          (NumVal s) (CurTok s) (BinopPrecedence s).

(* ===================================================================== *)
(** * Lexer *)
(* ===================================================================== *)

Module Lexer.

Definition tok_eof : Z := -1.
Definition tok_def : Z := -2.
Definition tok_extern : Z := -3.
Definition tok_identifier : Z := -4.
Definition tok_number : Z := -5.

(** [getchar()] on the unread input: the next byte, or [EOF]. *)
Definition getchar (inp : string) : Z * string :=
  match inp with
  | EmptyString => (EOF, EmptyString)
  | String a rest => (int_of_char a, rest)
  end.

(** The four loops of [gettok].  Each one reads with [getchar] until its
    condition fails, so each is a structural recursion on the unread
    input; they return the final [LastChar] and the input left.
    Character constants are written by their code: 10 is '\n', 13 is
    '\r', 35 is '#', 46 is '.'. *)

(** [while (isspace(LastChar)) LastChar = getchar();] *)
Fixpoint skip_whitespace (c : Z) (inp : string) : Z * string :=
  if isspace c then
    match inp with
    | EmptyString => (EOF, EmptyString)
    | String a rest => skip_whitespace (int_of_char a) rest
    end
  else (c, inp).

(** [while (isalnum((LastChar = getchar()))) IdentifierStr += LastChar;] *)
Fixpoint read_identifier (id : string) (inp : string)
  : string * Z * string :=
  match inp with
  | EmptyString => (id, EOF, EmptyString)
  | String a rest =>
      if isalnum (int_of_char a)
      then read_identifier (id ++ String a EmptyString) rest
      else (id, int_of_char a, rest)
  end.

(** [do { NumStr += LastChar; LastChar = getchar(); }
     while (isdigit(LastChar) || LastChar == '.');]
    entered with [NumStr] already holding the first character. *)
Fixpoint read_number (num : string) (inp : string)
  : string * Z * string :=
  match inp with
  | EmptyString => (num, EOF, EmptyString)
  | String a rest =>
      if isdigit (int_of_char a) || (int_of_char a =? 46)
      then read_number (num ++ String a EmptyString) rest
      else (num, int_of_char a, rest)
  end.

(** [do LastChar = getchar();
     while (LastChar != EOF && LastChar != '\n' && LastChar != '\r');] *)
Fixpoint skip_comment (inp : string) : Z * string :=
  match inp with
  | EmptyString => (EOF, EmptyString)
  | String a rest =>
      if (int_of_char a =? 10) || (int_of_char a =? 13)
      then (int_of_char a, rest)
      else skip_comment rest
  end.

(** [gettok]; [depth] bounds the nesting of the tail call
    [return gettok();] that follows a comment. *)
Fixpoint gettok_rec (depth : nat) (s : state) : Z * state :=
  let '(c, inp) := skip_whitespace (LastChar s) (stdin s) in
  if isalpha c then
    let '(id, c', inp') :=
      read_identifier (String (char_of_int c) EmptyString) inp in
    let s' := set_IdentifierStr id (set_input c' inp' s) in
    if String.eqb id "def" then (tok_def, s')
    else if String.eqb id "extern" then (tok_extern, s')
    else (tok_identifier, s')
  else if isdigit c || (c =? 46) then
    let '(num, c', inp') :=
      read_number (String (char_of_int c) EmptyString) inp in
    (tok_number, set_NumVal (strtod num) (set_input c' inp' s))
  else if c =? 35 then
    let '(c', inp') := skip_comment inp in
    if negb (c' =? EOF) then
      match depth with
      | S d => gettok_rec d (set_input c' inp' s)
      | O => (tok_eof, set_input c' inp' s)
      end
    else (tok_eof, set_input c' inp' s)
  else if c =? EOF then (tok_eof, set_input c inp s)
  else
    let '(c', inp') := getchar inp in
    (c, set_input c' inp' s).

(** Every nested call comes after a comment that ended on a line break
    read from the input, so the input length bounds the nesting. *)
Definition gettok (s : state) : Z * state :=
  gettok_rec (String.length (stdin s)) s.

(** [static int getNextToken() { return CurTok = gettok(); }] *)
Definition getNextToken (s : state) : Z * state :=
  let '(t, s') := gettok s in (t, set_CurTok t s').

End Lexer.
Import Lexer.

(* ===================================================================== *)
(** * Abstract syntax tree *)
(* ===================================================================== *)

#[local] Set Warnings "-register-all".

Inductive ExprAST : Type :=
| NumberExprAST (Val : float)
| VariableExprAST (Name : string)
| BinaryExprAST (Op : ascii) (LHS RHS : ExprAST)
| CallExprAST (Callee : string) (Args : list ExprAST).

Arguments NumberExprAST Val%_float.

Record PrototypeAST : Type := mkPrototypeAST {
  proto_Name : string;
  proto_Args : list string
}.

Record FunctionAST : Type := mkFunctionAST {
  Proto : PrototypeAST;
  Body : ExprAST
}.

(* ===================================================================== *)
(** * Parser *)
(* ===================================================================== *)

(** What a call of a parsing routine amounts to: it returns [r] and leaves
    the program in state [s], or the recursion budget of the model ran out
    before the routine returned. *)
Inductive outcome (A : Type) : Type :=
| Done (r : A) (s : state)
| OutOfFuel.
Arguments Done {A} r s.
Arguments OutOfFuel {A}.

Definition bind {A B : Type} (m : outcome A) (k : A -> state -> outcome B)
  : outcome B :=
  match m with
  | Done r s => k r s
  | OutOfFuel => OutOfFuel
  end.

Notation "'call' r , s <- m ; k" := (bind m (fun r s => k))
  (at level 10, r name, s name, m at level 100, k at level 200).

Module Parser.

(** [BinopPrecedence[c]]: [std::map::operator[]] value-initialises the
    entry when the key is absent. *)
Definition subscript (m : gmap ascii Z) (c : ascii) : Z * gmap ascii Z :=
  match m !! c with
  | Some p => (p, m)
  | None => (0, <[c := 0]> m)
  end.

Definition GetTokPrecedence (s : state) : Z * state :=
  if negb (isascii (CurTok s)) then (-1, s)
  else
    let '(TokPrec, m) :=
      subscript (BinopPrecedence s) (char_of_int (CurTok s)) in
    let s' := set_BinopPrecedence m s in
    if TokPrec <=? 0 then (-1, s') else (TokPrec, s').

(** [LogError] and [LogErrorP]: print, return null. *)
Definition LogError {A : Type} (Str : string) (s : state)
  : outcome (option A) :=
  Done None (log Str s).

Definition ParseNumberExpr (s : state) : outcome (option ExprAST) :=
  let Result := NumberExprAST (NumVal s) in
  let '(_, s1) := getNextToken s in
  Done (Some Result) s1.

Definition lparen : Z := 40.
Definition rparen : Z := 41.
Definition comma : Z := 44.

Fixpoint ParseExpression (fuel : nat) (s : state)
  : outcome (option ExprAST) :=
  match fuel with
  | O => OutOfFuel
  | S fuel =>
      call LHS, s1 <- ParsePrimary fuel s;
      match LHS with
      | None => Done None s1
      | Some LHS => ParseBinOpRHS fuel 0 LHS s1
      end
  end

with ParsePrimary (fuel : nat) (s : state) : outcome (option ExprAST) :=
  match fuel with
  | O => OutOfFuel
  | S fuel =>
      if CurTok s =? tok_identifier then ParseIdentifierExpr fuel s
      else if CurTok s =? tok_number then ParseNumberExpr s
      else if CurTok s =? lparen then ParseParenExpr fuel s
      else LogError "unknown token when expecting an expression" s
  end

with ParseParenExpr (fuel : nat) (s : state) : outcome (option ExprAST) :=
  match fuel with
  | O => OutOfFuel
  | S fuel =>
      let '(_, s1) := getNextToken s in
      call V, s2 <- ParseExpression fuel s1;
      match V with
      | None => Done None s2
      | Some V =>
          if negb (CurTok s2 =? rparen) then LogError "expected ')'" s2
          else
            let '(_, s3) := getNextToken s2 in
            Done (Some V) s3
      end
  end

with ParseIdentifierExpr (fuel : nat) (s : state)
  : outcome (option ExprAST) :=
  match fuel with
  | O => OutOfFuel
  | S fuel =>
      let IdName := IdentifierStr s in
      let '(_, s1) := getNextToken s in
      if negb (CurTok s1 =? lparen) then
        Done (Some (VariableExprAST IdName)) s1
      else
        let '(_, s2) := getNextToken s1 in
        call Args, s3 <-
          (if negb (CurTok s2 =? rparen) then ParseCallArgs fuel [] s2
           else Done (Some []) s2);
        match Args with
        | None => Done None s3
        | Some Args =>
            let '(_, s4) := getNextToken s3 in
            Done (Some (CallExprAST IdName Args)) s4
        end
  end

(** The [while (true)] loop of [ParseIdentifierExpr], one iteration per
    unfolding: [Some Args] when it leaves by [break], [None] when it
    leaves by [return nullptr]. *)
with ParseCallArgs (fuel : nat) (Args : list ExprAST) (s : state)
  : outcome (option (list ExprAST)) :=
  match fuel with
  | O => OutOfFuel
  | S fuel =>
      call Arg, s1 <- ParseExpression fuel s;
      match Arg with
      | None => Done None s1
      | Some Arg =>
          let Args := (Args ++ [Arg])%list in
          if CurTok s1 =? rparen then Done (Some Args) s1
          else if negb (CurTok s1 =? comma) then
            LogError "Expected ')' or ',' in argument list" s1
          else
            let '(_, s2) := getNextToken s1 in
            ParseCallArgs fuel Args s2
      end
  end

(** [ParseBinOpRHS], one iteration of its [while (true)] per unfolding. *)
with ParseBinOpRHS (fuel : nat) (ExprPrec : Z) (LHS : ExprAST) (s : state)
  : outcome (option ExprAST) :=
  match fuel with
  | O => OutOfFuel
  | S fuel =>
      let '(TokPrec, s1) := GetTokPrecedence s in
      if TokPrec <? ExprPrec then Done (Some LHS) s1
      else
        let BinOp := CurTok s1 in
        let '(_, s2) := getNextToken s1 in
        call RHS, s3 <- ParsePrimary fuel s2;
        match RHS with
        | None => Done None s3
        | Some RHS =>
            let '(NextPrec, s4) := GetTokPrecedence s3 in
            call RHS, s5 <-
              (if TokPrec <? NextPrec
               then ParseBinOpRHS fuel (TokPrec + 1) RHS s4
               else Done (Some RHS) s4);
            match RHS with
            | None => Done None s5
            | Some RHS =>
                ParseBinOpRHS fuel ExprPrec
                  (BinaryExprAST (char_of_int BinOp) LHS RHS) s5
            end
        end
  end.

(** [while (getNextToken() == tok_identifier)
       ArgNames.push_back(IdentifierStr);] *)
Fixpoint ParsePrototypeArgs (fuel : nat) (ArgNames : list string)
  (s : state) : outcome (list string) :=
  match fuel with
  | O => OutOfFuel
  | S fuel =>
      let '(t, s1) := getNextToken s in
      if t =? tok_identifier
      then ParsePrototypeArgs fuel (ArgNames ++ [IdentifierStr s1])%list s1
      else Done ArgNames s1
  end.

Definition ParsePrototype (fuel : nat) (s : state)
  : outcome (option PrototypeAST) :=
  if negb (CurTok s =? tok_identifier) then
    LogError "Expected function name in prototype" s
  else
    let FnName := IdentifierStr s in
    let '(_, s1) := getNextToken s in
    if negb (CurTok s1 =? lparen) then
      LogError "Expected '(' in prototype" s1
    else
      call ArgNames, s2 <- ParsePrototypeArgs fuel [] s1;
      if negb (CurTok s2 =? rparen) then
        LogError "Expected ')' in prototype" s2
      else
        let '(_, s3) := getNextToken s2 in
        Done (Some (mkPrototypeAST FnName ArgNames)) s3.

Definition ParseDefinition (fuel : nat) (s : state)
  : outcome (option FunctionAST) :=
  let '(_, s1) := getNextToken s in
  call Proto, s2 <- ParsePrototype fuel s1;
  match Proto with
  | None => Done None s2
  | Some Proto =>
      call E, s3 <- ParseExpression fuel s2;
      match E with
      | Some E => Done (Some (mkFunctionAST Proto E)) s3
      | None => Done None s3
      end
  end.

Definition ParseTopLevelExpr (fuel : nat) (s : state)
  : outcome (option FunctionAST) :=
  call E, s1 <- ParseExpression fuel s;
  match E with
  | Some E =>
      let Proto := mkPrototypeAST "__anon_expr" [] in
      Done (Some (mkFunctionAST Proto E)) s1
  | None => Done None s1
  end.

Definition ParseExtern (fuel : nat) (s : state)
  : outcome (option PrototypeAST) :=
  let '(_, s1) := getNextToken s in
  ParsePrototype fuel s1.

End Parser.
Import Parser.

(* ===================================================================== *)
(** * Start-up *)
(* ===================================================================== *)

(** The table [main] installs. *)
Definition main_BinopPrecedence : gmap ascii Z :=
  <["*"%char := 40]> (<["-"%char := 20]> (<["+"%char := 20]>
    (<["<"%char := 10]> ∅))).

(** The statics as they are when [main] is entered, reading [inp]. *)
Definition initial (inp : string) : state :=
  mkState inp [] 32 EmptyString 0%float 0 ∅.

(** The state in which [main] enters [MainLoop]: table installed, first
    token read into [CurTok]. *)
Definition main_init (inp : string) : state :=
  snd (getNextToken (set_BinopPrecedence main_BinopPrecedence (initial inp))).

(* ===================================================================== *)
(** * Notions used in the statements *)
(* ===================================================================== *)

(** ** Recursion budget *)

(** [refines o1 o2]: whatever [o1] returned, [o2] returns too. *)
Definition refines {A : Type} (o1 o2 : outcome A) : Prop :=
  forall r s, o1 = Done r s -> o2 = Done r s.

(** One more unit of budget keeps every result of the six mutually
    recursive routines. *)
Definition parser_step_mono (n : nat) : Prop :=
  (forall s, refines (ParseExpression n s) (ParseExpression (S n) s)) /\
  (forall s, refines (ParsePrimary n s) (ParsePrimary (S n) s)) /\
  (forall s, refines (ParseParenExpr n s) (ParseParenExpr (S n) s)) /\
  (forall s, refines (ParseIdentifierExpr n s) (ParseIdentifierExpr (S n) s)) /\
  (forall a s, refines (ParseCallArgs n a s) (ParseCallArgs (S n) a s)) /\
  (forall p l s, refines (ParseBinOpRHS n p l s) (ParseBinOpRHS (S n) p l s)).

(** ** What a finished call shows *)

(** What the caller of a routine can see of the state once the routine has
    returned: the unread input, the messages printed, the buffered
    character and the lookahead token. *)
Record view : Type := mkView {
  v_stdin : string;
  v_stderr : list string;
  v_LastChar : Z;
  v_CurTok : Z
}.

Definition view_of (s : state) : view :=
  mkView (stdin s) (stderr s) (LastChar s) (CurTok s).

(** The value returned and the view of the final state, when there is
    one. *)
Definition observe {A : Type} (o : outcome A) : option (A * view) :=
  match o with
  | Done r s => Some (r, view_of s)
  | OutOfFuel => None
  end.

(** The state after [n] more calls of [getNextToken]. *)
Fixpoint after_tokens (n : nat) (s : state) : state :=
  match n with
  | O => s
  | S n => after_tokens n (snd (getNextToken s))
  end.

(** The function [ParseTopLevelExpr] wraps an expression in. *)
Definition anon (E : ExprAST) : FunctionAST :=
  mkFunctionAST (mkPrototypeAST "__anon_expr" []) E.

(** ** Binary operators *)

(** The current token is not a binary operator: it is no ASCII character
    (all of [tok_eof], [tok_def], [tok_extern], [tok_identifier] and
    [tok_number] are negative), or the table has no entry for it, or a
    non-positive one. *)
Definition not_binary_operator (s : state) : Prop :=
  CurTok s < 0 \/ 127 < CurTok s \/
  BinopPrecedence s !! char_of_int (CurTok s) = None \/
  exists p, BinopPrecedence s !! char_of_int (CurTok s) = Some p /\ p <= 0.

(** ** Error reports *)

(** [reported e o]: if the call [o], entered with [e] on the error stream,
    failed, then the stream it returned with is [e] and exactly one
    message after it; if it succeeded it printed nothing. *)
Definition reported {A : Type} (e : list string) (o : outcome (option A))
  : Prop :=
  match o with
  | Done None sf => exists msg se, sf = log msg se /\ stderr se = e
  | Done (Some _) sf => stderr sf = e
  | OutOfFuel => True
  end.

Definition parser_reported (n : nat) : Prop :=
  (forall s, reported (stderr s) (ParseExpression n s)) /\
  (forall s, reported (stderr s) (ParsePrimary n s)) /\
  (forall s, reported (stderr s) (ParseParenExpr n s)) /\
  (forall s, reported (stderr s) (ParseIdentifierExpr n s)) /\
  (forall a s, reported (stderr s) (ParseCallArgs n a s)) /\
  (forall p l s, reported (stderr s) (ParseBinOpRHS n p l s)).

(** ** One call of the lexer *)

(** The body of [gettok], with the nested call left open: [gettok_rec]
    is this body applied to itself at the next depth. *)
Definition gettok_body (rec : state -> Z * state) (s : state) : Z * state :=
  let '(c, inp) := skip_whitespace (LastChar s) (stdin s) in
  if isalpha c then
    let '(id, c', inp') :=
      read_identifier (String (char_of_int c) EmptyString) inp in
    let s' := set_IdentifierStr id (set_input c' inp' s) in
    if String.eqb id "def" then (tok_def, s')
    else if String.eqb id "extern" then (tok_extern, s')
    else (tok_identifier, s')
  else if isdigit c || (c =? 46) then
    let '(num, c', inp') :=
      read_number (String (char_of_int c) EmptyString) inp in
    (tok_number, set_NumVal (strtod num) (set_input c' inp' s))
  else if c =? 35 then
    let '(c', inp') := skip_comment inp in
    if negb (c' =? EOF) then rec (set_input c' inp' s)
    else (tok_eof, set_input c' inp' s)
  else if c =? EOF then (tok_eof, set_input c inp s)
  else
    let '(c', inp') := getchar inp in
    (c, set_input c' inp' s).

(** The state after one more [LastChar = getchar()]. *)
Definition advance (s : state) : state :=
  set_input (fst (getchar (stdin s))) (snd (getchar (stdin s))) s.

(** ** Whitespace *)

(** With [ws] as the set of characters that are skipped: a buffered
    character in [ws] is dropped and the next one examined. *)
Definition skips (ws : Z -> bool) : Prop :=
  forall s : state, ws (LastChar s) = true -> gettok s = gettok (advance s).

(** With [ws] as the set of characters that are skipped: a buffered
    character that is not in [ws], not a letter, not a digit or a dot
    (46), not [#] (35) and not [EOF] is returned as the token, while one
    character is read. *)
Definition single_char_tokens (ws : Z -> bool) : Prop :=
  forall s : state,
    ws (LastChar s) = false ->
    isalpha (LastChar s) = false ->
    isdigit (LastChar s) = false ->
    LastChar s <> 46 -> LastChar s <> 35 -> LastChar s <> EOF ->
    gettok s = (LastChar s, advance s).

(** The four characters the specification lists: space, \t, \n, \r. *)
Definition listed_whitespace (c : Z) : bool :=
  (c =? 32) || (c =? 9) || (c =? 10) || (c =? 13).

(** ** Token sequences and comments *)

(** The tokens of the first [n] calls of [gettok] (fewer when end of input
    comes first), each with the two side outputs as they are when the call
    returns. *)
Fixpoint lex (n : nat) (s : state) : list (Z * string * float) :=
  match n with
  | O => []
  | S n =>
      let '(t, s') := gettok s in
      (t, IdentifierStr s', NumVal s')
        :: (if t =? tok_eof then [] else lex n s')
  end.

(** The same, reading [inp] from the start. *)
Definition tokens (n : nat) (inp : string) : list (Z * string * float) :=
  lex n (initial inp).

(** The list of tokens has reached end of input. *)
Definition ends_at_eof (l : list (Z * string * float)) : bool :=
  match last l with
  | Some (t, _, _) => t =? tok_eof
  | None => false
  end.

(** The two characters that end a comment: \n and \r. *)
Definition is_linebreak (a : ascii) : bool :=
  (int_of_char a =? 10) || (int_of_char a =? 13).

Fixpoint no_linebreak (body : string) : bool :=
  match body with
  | EmptyString => true
  | String a rest => negb (is_linebreak a) && no_linebreak rest
  end.

(** The input without its comments: every [#] goes, with all that follows
    it up to, and not including, the next line break.  [in_comment] tells
    whether the characters being looked at are inside a comment. *)
Fixpoint strip (in_comment : bool) (inp : string) : string :=
  match inp with
  | EmptyString => EmptyString
  | String a rest =>
      if in_comment then
        if is_linebreak a then String a (strip false rest)
        else strip true rest
      else if int_of_char a =? 35 then strip true rest
      else String a (strip false rest)
  end.

Definition strip_comments (inp : string) : string := strip false inp.

(** The same for a lexer state, whose pending characters are the buffered
    one followed by the unread input. *)
Definition strip_stream (c : Z) (inp : string) : Z * string :=
  if c =? 35 then getchar (strip true inp) else (c, strip false inp).

Definition strip_state (s : state) : state :=
  set_input (fst (strip_stream (LastChar s) (stdin s)))
            (snd (strip_stream (LastChar s) (stdin s))) s.

Definition newline : string := String "010"%char EmptyString.

(** number 1, [+], number 2, [+], number 3, end of input; no identifier
    has been read, and [NumVal] keeps the last number. *)
Definition sample_tokens : list (Z * string * float) :=
  [ (tok_number, "", 1%float); (43, "", 1%float);
    (tok_number, "", 2%float); (43, "", 2%float);
    (tok_number, "", 3%float); (tok_eof, "", 3%float) ].

(* ===================================================================== *)
(** * Top-level driver *)
(* ===================================================================== *)

(** The driver prints to the error stream with [fprintf] calls that take
    no argument; each such call is recorded with [log] as the text it
    prints (a message of [LogError] is recorded as the argument [Str]). *)

Module Driver.

Definition prompt : string := "kaleidoscope >>> ".
Definition line_break : string := String "010"%char EmptyString.
Definition parsed_definition : string :=
  "Parsed a function definition" ++ line_break.
Definition parsed_extern : string := "Parsed an extern" ++ line_break.
Definition parsed_top_level : string :=
  "Parsed a top-level expression" ++ line_break.

Definition semicolon : Z := 59.

Definition HandleDefinition (fuel : nat) (s : state) : outcome unit :=
  call F, s1 <- ParseDefinition fuel s;
  match F with
  | Some _ => Done tt (log parsed_definition s1)
  | None => Done tt (snd (getNextToken s1))
  end.

Definition HandleExtern (fuel : nat) (s : state) : outcome unit :=
  call P, s1 <- ParseExtern fuel s;
  match P with
  | Some _ => Done tt (log parsed_extern s1)
  | None => Done tt (snd (getNextToken s1))
  end.

Definition HandleTopLevelExpression (fuel : nat) (s : state)
  : outcome unit :=
  call F, s1 <- ParseTopLevelExpr fuel s;
  match F with
  | Some _ => Done tt (log parsed_top_level s1)
  | None => Done tt (snd (getNextToken s1))
  end.

(** [MainLoop], one iteration of its [while (true)] per unfolding. *)
Fixpoint MainLoop (fuel : nat) (s : state) : outcome unit :=
  match fuel with
  | O => OutOfFuel
  | S fuel =>
      if CurTok s =? tok_eof then Done tt (log line_break s)
      else if CurTok s =? semicolon then
        MainLoop fuel (snd (getNextToken (log prompt s)))
      else if CurTok s =? tok_def then
        call u, s1 <- HandleDefinition fuel s; MainLoop fuel s1
      else if CurTok s =? tok_extern then
        call u, s1 <- HandleExtern fuel s; MainLoop fuel s1
      else
        call u, s1 <- HandleTopLevelExpression fuel s; MainLoop fuel s1
  end.

(** [main] reading [inp]: the value it returns and the final state. *)
Definition main (fuel : nat) (inp : string) : outcome Z :=
  let s := set_BinopPrecedence main_BinopPrecedence (initial inp) in
  let s := snd (getNextToken (log prompt s)) in
  call u, s' <- MainLoop fuel s;
  Done 0 s'.

End Driver.
Import Driver.

(* ===================================================================== *)
(** * Notions used in the further properties *)
(* ===================================================================== *)

(** ** Input still to be read *)

(** The characters [gettok] has yet to look at: the buffered one, unless
    it is [EOF], and the unread input. *)
Definition pending_chars (c : Z) (inp : string) : nat :=
  (String.length inp + (if (c =? EOF)%Z then 0 else 1))%nat.

Definition pending (s : state) : nat := pending_chars (LastChar s) (stdin s).

(** The same, counting the lookahead token too unless it is [tok_eof]. *)
Definition tokens_left (s : state) : nat :=
  (pending s + (if (CurTok s =? tok_eof)%Z then 0 else 1))%nat.

(** [LastChar] holds a value of [getchar]: a byte or [EOF]. *)
Definition getchar_value (c : Z) : Prop := -1 <= c <= 255.

(** ** Kinds of tokens *)

(** The token [gettok] returns for the identifier text [id]. *)
Definition identifier_token (id : string) : Z :=
  if String.eqb id "def" then tok_def
  else if String.eqb id "extern" then tok_extern
  else tok_identifier.

(** A token that stands for a character: a byte that is no whitespace, no
    letter, no digit, no dot and no [#]. *)
Definition character_token (t : Z) : Prop :=
  0 <= t <= 255 /\ isspace t = false /\ isalpha t = false /\
  isdigit t = false /\ t <> 46 /\ t <> 35.

Definition named_token (t : Z) : Prop :=
  t = tok_eof \/ t = tok_def \/ t = tok_extern \/ t = tok_identifier \/
  t = tok_number.

(** Every character of [body] satisfies [p]. *)
Fixpoint all_chars (p : Z -> bool) (body : string) : bool :=
  match body with
  | EmptyString => true
  | String a rest => p (int_of_char a) && all_chars p rest
  end.

(** [rest] is empty or starts with a character that fails [p]. *)
Definition stops (p : Z -> bool) (rest : string) : Prop :=
  p (fst (getchar rest)) = false.

Definition isnumeral (c : Z) : bool := isdigit c || (c =? 46).

(** ** Relations between the state at a call and at its return *)

(** [returns_in R s o]: if the call [o] returned, its final state is
    related by [R] to [s]. *)
Definition returns_in {A : Type} (R : state -> state -> Prop) (s : state)
  (o : outcome A) : Prop :=
  match o with
  | Done _ s' => R s s'
  | OutOfFuel => True
  end.

(** Each of the six mutually recursive routines, entered in a state
    related to [s0], returns in a state related to [s0]. *)
Definition parser_preserves (R : state -> state -> Prop) (n : nat) : Prop :=
  (forall s0 s, R s0 s -> returns_in R s0 (ParseExpression n s)) /\
  (forall s0 s, R s0 s -> returns_in R s0 (ParsePrimary n s)) /\
  (forall s0 s, R s0 s -> returns_in R s0 (ParseParenExpr n s)) /\
  (forall s0 s, R s0 s -> returns_in R s0 (ParseIdentifierExpr n s)) /\
  (forall a s0 s, R s0 s -> returns_in R s0 (ParseCallArgs n a s)) /\
  (forall p l s0 s, R s0 s -> returns_in R s0 (ParseBinOpRHS n p l s)).

(** The call returned: the budget was enough. *)
Definition returns {A : Type} (o : outcome A) : Prop :=
  match o with
  | Done _ _ => True
  | OutOfFuel => False
  end.

(** Nothing was given back to the input. *)
Definition consumes (s s' : state) : Prop :=
  (tokens_left s' <= tokens_left s)%nat.

(** The precedence [operator[]] finds for the character [k]: the entry, or
    zero when there is none. *)
Definition precedence_of (m : gmap ascii Z) (k : ascii) : Z :=
  default 0 (m !! k).

(** The table gives every character the precedence it gave before. *)
Definition same_precedences (s s' : state) : Prop :=
  forall k : ascii,
    precedence_of (BinopPrecedence s') k = precedence_of (BinopPrecedence s) k.


(** ** Budgets that are enough *)

(** With [M] tokens left, a budget [n] that is enough for each of the six
    mutually recursive routines. *)
Definition parser_returns (n : nat) : Prop :=
  (forall s, (3 * tokens_left s + 2 <= n)%nat ->
             returns (ParseExpression n s)) /\
  (forall s, (3 * tokens_left s + 1 <= n)%nat ->
             returns (ParsePrimary n s)) /\
  (forall s, CurTok s = lparen -> (3 * tokens_left s <= n)%nat ->
             returns (ParseParenExpr n s)) /\
  (forall s, CurTok s = tok_identifier -> (3 * tokens_left s <= n + 2)%nat ->
             returns (ParseIdentifierExpr n s)) /\
  (forall a s, (3 * tokens_left s + 3 <= n)%nat ->
               returns (ParseCallArgs n a s)) /\
  (forall p l s, 0 <= p -> (3 * tokens_left s + 1 <= n)%nat ->
                 returns (ParseBinOpRHS n p l s)).

(** ** Operators of a tree *)

(** The operator characters of the binary nodes of [e], arguments of
    calls included. *)
Fixpoint operators (e : ExprAST) : list ascii :=
  match e with
  | NumberExprAST _ => []
  | VariableExprAST _ => []
  | BinaryExprAST Op LHS RHS => Op :: (operators LHS ++ operators RHS)%list
  | CallExprAST _ Args => flat_map operators Args
  end.

(** Every binary node of [e] carries a character to which the table [m]
    gives a positive precedence. *)
Definition operators_known (m : gmap ascii Z) (e : ExprAST) : Prop :=
  Forall (fun op => 0 < precedence_of m op) (operators e).

Definition parser_operators_known (n : nat) : Prop :=
  (forall m s e s',
      (forall k, precedence_of (BinopPrecedence s) k = precedence_of m k) ->
      ParseExpression n s = Done (Some e) s' -> operators_known m e) /\
  (forall m s e s',
      (forall k, precedence_of (BinopPrecedence s) k = precedence_of m k) ->
      ParsePrimary n s = Done (Some e) s' -> operators_known m e) /\
  (forall m s e s',
      (forall k, precedence_of (BinopPrecedence s) k = precedence_of m k) ->
      ParseParenExpr n s = Done (Some e) s' -> operators_known m e) /\
  (forall m s e s',
      (forall k, precedence_of (BinopPrecedence s) k = precedence_of m k) ->
      ParseIdentifierExpr n s = Done (Some e) s' -> operators_known m e) /\
  (forall m a s r s',
      (forall k, precedence_of (BinopPrecedence s) k = precedence_of m k) ->
      Forall (operators_known m) a ->
      ParseCallArgs n a s = Done (Some r) s' ->
      Forall (operators_known m) r) /\
  (forall m p l s e s',
      (forall k, precedence_of (BinopPrecedence s) k = precedence_of m k) ->
      0 <= p -> operators_known m l ->
      ParseBinOpRHS n p l s = Done (Some e) s' -> operators_known m e).

(** ** Identifiers ahead *)

(** The next [k] tokens [getNextToken] reads from [s] are all
    [tok_identifier]. *)
Fixpoint identifiers_ahead (k : nat) (s : state) : Prop :=
  match k with
  | O => True
  | S k =>
      CurTok (snd (getNextToken s)) = tok_identifier /\
      identifiers_ahead k (snd (getNextToken s))
  end.

(** The text [IdentifierStr] holds after each of the next [k] tokens. *)
Fixpoint names_read (k : nat) (s : state) : list string :=
  match k with
  | O => []
  | S k =>
      IdentifierStr (snd (getNextToken s))
        :: names_read k (snd (getNextToken s))
  end.

(* ===================================================================== *)
(** * Unfolding equations *)
(* ===================================================================== *)

Section Equations.
Variables (fuel : nat) (s : state).

Lemma ParseExpression_eq :
  ParseExpression (S fuel) s =
  (call LHS, s1 <- ParsePrimary fuel s;
   match LHS with
   | None => Done None s1
   | Some LHS => ParseBinOpRHS fuel 0 LHS s1
   end).
Proof. reflexivity. Qed.

Lemma ParsePrimary_eq :
  ParsePrimary (S fuel) s =
  if CurTok s =? tok_identifier then ParseIdentifierExpr fuel s
  else if CurTok s =? tok_number then ParseNumberExpr s
  else if CurTok s =? lparen then ParseParenExpr fuel s
  else LogError "unknown token when expecting an expression" s.
Proof. reflexivity. Qed.

Lemma ParseParenExpr_eq :
  ParseParenExpr (S fuel) s =
  (call V, s2 <- ParseExpression fuel (snd (getNextToken s));
   match V with
   | None => Done None s2
   | Some V =>
       if negb (CurTok s2 =? rparen) then LogError "expected ')'" s2
       else Done (Some V) (snd (getNextToken s2))
   end).
Proof.
  cbn [ParseParenExpr]. destruct (getNextToken s) as [t s1]; cbn [snd].
  destruct (ParseExpression fuel s1) as [[V|] s2|]; cbn [bind]; try reflexivity.
  destruct (negb _); [reflexivity|]. now destruct (getNextToken s2).
Qed.

Lemma ParseIdentifierExpr_eq :
  ParseIdentifierExpr (S fuel) s =
  let s1 := snd (getNextToken s) in
  if negb (CurTok s1 =? lparen) then
    Done (Some (VariableExprAST (IdentifierStr s))) s1
  else
    let s2 := snd (getNextToken s1) in
    call Args, s3 <-
      (if negb (CurTok s2 =? rparen) then ParseCallArgs fuel [] s2
       else Done (Some []) s2);
    match Args with
    | None => Done None s3
    | Some Args =>
        Done (Some (CallExprAST (IdentifierStr s) Args))
             (snd (getNextToken s3))
    end.
Proof.
  cbn [ParseIdentifierExpr]. destruct (getNextToken s) as [t s1]; cbn [snd].
  destruct (negb _); [reflexivity|].
  destruct (getNextToken s1) as [t' s2]; cbn [snd].
  destruct (if negb _ then _ else _) as [[Args|] s3|]; cbn [bind];
    try reflexivity.
  now destruct (getNextToken s3).
Qed.

Lemma ParseCallArgs_eq (Args : list ExprAST) :
  ParseCallArgs (S fuel) Args s =
  (call Arg, s1 <- ParseExpression fuel s;
   match Arg with
   | None => Done None s1
   | Some Arg =>
       if CurTok s1 =? rparen then Done (Some (Args ++ [Arg])%list) s1
       else if negb (CurTok s1 =? comma) then
         LogError "Expected ')' or ',' in argument list" s1
       else ParseCallArgs fuel (Args ++ [Arg])%list (snd (getNextToken s1))
   end).
Proof.
  cbn [ParseCallArgs].
  destruct (ParseExpression fuel s) as [[Arg|] s1|]; cbn [bind];
    try reflexivity.
  destruct (_ =? rparen); [reflexivity|]. destruct (negb _); [reflexivity|].
  now destruct (getNextToken s1).
Qed.

Lemma ParseBinOpRHS_eq (ExprPrec : Z) (LHS : ExprAST) :
  ParseBinOpRHS (S fuel) ExprPrec LHS s =
  let TokPrec := fst (GetTokPrecedence s) in
  let s1 := snd (GetTokPrecedence s) in
  if TokPrec <? ExprPrec then Done (Some LHS) s1
  else
    call RHS, s3 <- ParsePrimary fuel (snd (getNextToken s1));
    match RHS with
    | None => Done None s3
    | Some RHS =>
        let NextPrec := fst (GetTokPrecedence s3) in
        let s4 := snd (GetTokPrecedence s3) in
        call RHS, s5 <-
          (if TokPrec <? NextPrec
           then ParseBinOpRHS fuel (TokPrec + 1) RHS s4
           else Done (Some RHS) s4);
        match RHS with
        | None => Done None s5
        | Some RHS =>
            ParseBinOpRHS fuel ExprPrec
              (BinaryExprAST (char_of_int (CurTok s1)) LHS RHS) s5
        end
    end.
Proof.
  cbn [ParseBinOpRHS]. destruct (GetTokPrecedence s) as [TokPrec s1].
  cbn [fst snd]. destruct (_ <? _); [reflexivity|].
  destruct (getNextToken s1) as [t s2]; cbn [snd].
  destruct (ParsePrimary fuel s2) as [[RHS|] s3|]; cbn [bind];
    try reflexivity.
  now destruct (GetTokPrecedence s3) as [NextPrec s4].
Qed.

Lemma ParsePrototypeArgs_eq (ArgNames : list string) :
  ParsePrototypeArgs (S fuel) ArgNames s =
  let s1 := snd (getNextToken s) in
  if fst (getNextToken s) =? tok_identifier
  then ParsePrototypeArgs fuel (ArgNames ++ [IdentifierStr s1])%list s1
  else Done ArgNames s1.
Proof.
  cbn [ParsePrototypeArgs]. now destruct (getNextToken s) as [t s1].
Qed.

End Equations.

(* ===================================================================== *)
(** * More fuel never changes a result *)
(* ===================================================================== *)

Lemma refines_refl {A : Type} (o : outcome A) : refines o o.
Proof. intros r s H; exact H. Qed.

Lemma refines_out {A : Type} (o : outcome A) : refines OutOfFuel o.
Proof. intros r s H; discriminate H. Qed.

Lemma refines_bind {A B : Type} (m1 m2 : outcome A)
  (k1 k2 : A -> state -> outcome B) :
  refines m1 m2 ->
  (forall r s, refines (k1 r s) (k2 r s)) ->
  refines (bind m1 k1) (bind m2 k2).
Proof.
  intros Hm Hk r s. destruct m1 as [r1 s1|]; cbn [bind]; [|discriminate].
  rewrite (Hm r1 s1 eq_refl); cbn [bind]. apply Hk.
Qed.

Ltac refines_step IH :=
  first
    [ apply refines_refl
    | apply refines_out
    | apply IH
    | apply refines_bind; [|intros ? ?]
    | match goal with
      | |- refines (match ?x with _ => _ end) (match ?x with _ => _ end) =>
          destruct x
      | |- refines (let _ := _ in _) _ => cbv zeta
      end ].

Lemma parser_step_mono_all : forall n, parser_step_mono n.
Proof.
  induction n as [|n (IHe & IHp & IHpar & IHid & IHargs & IHrhs)].
  - repeat split; intros; apply refines_out.
  - repeat split; intros.
    + rewrite (ParseExpression_eq (S n)), (ParseExpression_eq n).
      repeat refines_step IHp. apply IHrhs.
    + rewrite (ParsePrimary_eq (S n)), (ParsePrimary_eq n).
      repeat refines_step IHid. apply IHpar.
    + rewrite (ParseParenExpr_eq (S n)), (ParseParenExpr_eq n).
      repeat refines_step IHe.
    + rewrite (ParseIdentifierExpr_eq (S n)), (ParseIdentifierExpr_eq n).
      repeat refines_step IHargs.
    + rewrite (ParseCallArgs_eq (S n)), (ParseCallArgs_eq n).
      repeat refines_step IHe. apply IHargs.
    + rewrite (ParseBinOpRHS_eq (S n)), (ParseBinOpRHS_eq n).
      repeat refines_step IHp; apply IHrhs.
Qed.

Lemma ParsePrototypeArgs_step_mono : forall n a s,
  refines (ParsePrototypeArgs n a s) (ParsePrototypeArgs (S n) a s).
Proof.
  induction n as [|n IH]; intros a s; [apply refines_out|].
  rewrite (ParsePrototypeArgs_eq (S n)), (ParsePrototypeArgs_eq n).
  repeat refines_step IH.
Qed.

Lemma refines_le {A : Type} (f : nat -> outcome A) :
  (forall n, refines (f n) (f (S n))) ->
  forall n m, (n <= m)%nat -> refines (f n) (f m).
Proof.
  intros Hstep n m Hle. induction Hle as [|m _ IH]; [apply refines_refl|].
  intros r s H. apply Hstep, IH, H.
Qed.

Section FuelMonotone.
Variables (n m : nat).
Hypothesis Hle : (n <= m)%nat.

Lemma ParseExpression_mono s :
  refines (ParseExpression n s) (ParseExpression m s).
Proof.
  apply (refines_le (fun k => ParseExpression k s)); [|exact Hle].
  intros k; apply (parser_step_mono_all k).
Qed.

Lemma ParsePrimary_mono s :
  refines (ParsePrimary n s) (ParsePrimary m s).
Proof.
  apply (refines_le (fun k => ParsePrimary k s)); [|exact Hle].
  intros k; apply (parser_step_mono_all k).
Qed.

Lemma ParseParenExpr_mono s :
  refines (ParseParenExpr n s) (ParseParenExpr m s).
Proof.
  apply (refines_le (fun k => ParseParenExpr k s)); [|exact Hle].
  intros k; apply (parser_step_mono_all k).
Qed.

Lemma ParseIdentifierExpr_mono s :
  refines (ParseIdentifierExpr n s) (ParseIdentifierExpr m s).
Proof.
  apply (refines_le (fun k => ParseIdentifierExpr k s)); [|exact Hle].
  intros k; apply (parser_step_mono_all k).
Qed.

Lemma ParseCallArgs_mono a s :
  refines (ParseCallArgs n a s) (ParseCallArgs m a s).
Proof.
  apply (refines_le (fun k => ParseCallArgs k a s)); [|exact Hle].
  intros k; apply (parser_step_mono_all k).
Qed.

Lemma ParseBinOpRHS_mono p l s :
  refines (ParseBinOpRHS n p l s) (ParseBinOpRHS m p l s).
Proof.
  apply (refines_le (fun k => ParseBinOpRHS k p l s)); [|exact Hle].
  intros k; apply (parser_step_mono_all k).
Qed.

Lemma ParsePrototypeArgs_mono a s :
  refines (ParsePrototypeArgs n a s) (ParsePrototypeArgs m a s).
Proof.
  apply (refines_le (fun k => ParsePrototypeArgs k a s)); [|exact Hle].
  intros k; apply ParsePrototypeArgs_step_mono.
Qed.

Lemma ParsePrototype_mono s :
  refines (ParsePrototype n s) (ParsePrototype m s).
Proof.
  unfold ParsePrototype.
  destruct (negb (CurTok s =? tok_identifier)); [apply refines_refl|].
  destruct (getNextToken s) as [t s1].
  destruct (negb (CurTok s1 =? lparen)); [apply refines_refl|].
  apply refines_bind; [apply ParsePrototypeArgs_mono|].
  intros; apply refines_refl.
Qed.

Lemma ParseDefinition_mono s :
  refines (ParseDefinition n s) (ParseDefinition m s).
Proof.
  unfold ParseDefinition. destruct (getNextToken s) as [t s1].
  apply refines_bind; [apply ParsePrototype_mono|].
  intros [P|] s2; [|apply refines_refl].
  apply refines_bind; [apply ParseExpression_mono|].
  intros; apply refines_refl.
Qed.

Lemma ParseTopLevelExpr_mono s :
  refines (ParseTopLevelExpr n s) (ParseTopLevelExpr m s).
Proof.
  unfold ParseTopLevelExpr.
  apply refines_bind; [apply ParseExpression_mono|].
  intros; apply refines_refl.
Qed.

Lemma ParseExtern_mono s :
  refines (ParseExtern n s) (ParseExtern m s).
Proof.
  unfold ParseExtern. destruct (getNextToken s) as [t s1].
  apply ParsePrototype_mono.
Qed.

End FuelMonotone.

(* ===================================================================== *)
(** * Observing a finished call *)
(* ===================================================================== *)

Lemma observe_Done {A : Type} (o : outcome A) (r : A) (v : view) :
  observe o = Some (r, v) -> exists s, o = Done r s /\ view_of s = v.
Proof.
  destruct o as [r' s'|]; cbn [observe]; intros H; [|discriminate H].
  injection H as -> <-. now exists s'.
Qed.

(** A run at a given budget, settled by evaluation and carried to every
    larger budget by monotonicity. *)
Ltac settle_run mono k :=
  match goal with
  | Hfuel : (_ <= ?fuel)%nat
    |- exists s', ?f ?fuel ?s0 = Done ?r s' /\ view_of s' = ?v =>
      let s' := fresh "s'" in
      let Hrun := fresh "Hrun" in
      let Hview := fresh "Hview" in
      destruct (observe_Done (f k s0) r v) as (s' & Hrun & Hview);
      [ vm_compute; reflexivity
      | exists s'; split; [ exact (mono k fuel Hfuel s0 _ _ Hrun) | exact Hview ] ]
  end.

(* ===================================================================== *)
(** * Parsing the sample inputs *)
(* ===================================================================== *)

(** C1. On the input [1+2*3], with the table installed by [main],
    [ParseTopLevelExpr] returns the anonymous function whose body is
    [1 + (2 * 3)]: the product is the right operand of the sum.  It never
    returns [(1 + 2) * 3]. *)
Theorem ParseTopLevelExpr_mul_binds_tighter :
  forall fuel : nat, (8 <= fuel)%nat ->
    (exists s',
        ParseTopLevelExpr fuel (main_init "1+2*3") =
          Done (Some (anon (BinaryExprAST "+" (NumberExprAST 1)
                              (BinaryExprAST "*" (NumberExprAST 2)
                                                 (NumberExprAST 3))))) s'
        /\ view_of s' = mkView "" [] EOF tok_eof)
    /\ (forall F s',
          ParseTopLevelExpr fuel (main_init "1+2*3") = Done (Some F) s' ->
          Body F <> BinaryExprAST "*"
                      (BinaryExprAST "+" (NumberExprAST 1) (NumberExprAST 2))
                      (NumberExprAST 3)).
Proof.
  intros fuel Hfuel.
  assert (Hex : exists s',
        ParseTopLevelExpr fuel (main_init "1+2*3") =
          Done (Some (anon (BinaryExprAST "+" (NumberExprAST 1)
                              (BinaryExprAST "*" (NumberExprAST 2)
                                                 (NumberExprAST 3))))) s'
        /\ view_of s' = mkView "" [] EOF tok_eof)
    by settle_run ParseTopLevelExpr_mono 8%nat.
  split; [exact Hex|].
  destruct Hex as (s0 & Hrun & _). intros F s' HF.
  rewrite Hrun in HF. injection HF as <- _. cbn [Body anon]. discriminate.
Qed.

Lemma ParseTopLevelExpr_mul_binds_tighter_witness :
  (8 <= 8)%nat /\
  exists s',
    ParseTopLevelExpr 8 (main_init "1+2*3") =
      Done (Some (anon (BinaryExprAST "+" (NumberExprAST 1)
                          (BinaryExprAST "*" (NumberExprAST 2)
                                             (NumberExprAST 3))))) s'
    /\ view_of s' = mkView "" [] EOF tok_eof.
Proof.
  split; [lia|].
  apply (ParseTopLevelExpr_mul_binds_tighter 8); lia.
Defined.

(** C2. On the input [1-2-3] [ParseExpression] groups to the left: the
    result is [(1 - 2) - 3], and it is never [1 - (2 - 3)]. *)
Theorem ParseExpression_left_assoc :
  forall fuel : nat, (8 <= fuel)%nat ->
    (exists s',
        ParseExpression fuel (main_init "1-2-3") =
          Done (Some (BinaryExprAST "-"
                        (BinaryExprAST "-" (NumberExprAST 1) (NumberExprAST 2))
                        (NumberExprAST 3))) s'
        /\ view_of s' = mkView "" [] EOF tok_eof)
    /\ (forall s',
          ParseExpression fuel (main_init "1-2-3") <>
          Done (Some (BinaryExprAST "-" (NumberExprAST 1)
                        (BinaryExprAST "-" (NumberExprAST 2)
                                           (NumberExprAST 3)))) s').
Proof.
  intros fuel Hfuel.
  assert (Hex : exists s',
        ParseExpression fuel (main_init "1-2-3") =
          Done (Some (BinaryExprAST "-"
                        (BinaryExprAST "-" (NumberExprAST 1) (NumberExprAST 2))
                        (NumberExprAST 3))) s'
        /\ view_of s' = mkView "" [] EOF tok_eof)
    by settle_run ParseExpression_mono 8%nat.
  split; [exact Hex|].
  destruct Hex as (s0 & Hrun & _). intros s' HF.
  rewrite Hrun in HF. discriminate HF.
Qed.

Lemma ParseExpression_left_assoc_witness :
  (8 <= 9)%nat /\
  exists s',
    ParseExpression 9 (main_init "1-2-3") =
      Done (Some (BinaryExprAST "-"
                    (BinaryExprAST "-" (NumberExprAST 1) (NumberExprAST 2))
                    (NumberExprAST 3))) s'
    /\ view_of s' = mkView "" [] EOF tok_eof.
Proof.
  split; [lia|].
  apply (ParseExpression_left_assoc 9); lia.
Defined.

(** C3. On the input [def foo(x y) x + y] (with [CurTok] on [def], as
    [MainLoop] calls it) [ParseDefinition] succeeds; the prototype is named
    [foo], its parameters are [x] then [y], and the body is [x + y]. *)
Theorem ParseDefinition_foo :
  forall fuel : nat, (8 <= fuel)%nat ->
    CurTok (main_init "def foo(x y) x + y") = tok_def /\
    exists s',
      ParseDefinition fuel (main_init "def foo(x y) x + y") =
        Done (Some (mkFunctionAST
                      (mkPrototypeAST "foo" ["x"; "y"])
                      (BinaryExprAST "+" (VariableExprAST "x")
                                         (VariableExprAST "y")))) s'
      /\ view_of s' = mkView "" [] EOF tok_eof.
Proof.
  intros fuel Hfuel. split; [reflexivity|].
  settle_run ParseDefinition_mono 8%nat.
Qed.

Lemma ParseDefinition_foo_witness :
  (8 <= 12)%nat /\
  exists s',
    ParseDefinition 12 (main_init "def foo(x y) x + y") =
      Done (Some (mkFunctionAST
                    (mkPrototypeAST "foo" ["x"; "y"])
                    (BinaryExprAST "+" (VariableExprAST "x")
                                       (VariableExprAST "y")))) s'
    /\ view_of s' = mkView "" [] EOF tok_eof.
Proof.
  split; [lia|].
  apply (ParseDefinition_foo 12); lia.
Defined.

(** C4. On the input [foo(y, 4.0)] (with [CurTok] on the identifier)
    [ParseIdentifierExpr] returns the call of [foo] with the two arguments
    [y] and [4.0], in that order.  In general every argument parsed is
    appended once to the end of the arguments collected so far: after a
    comma the loop goes on with the longer list, at [)] it leaves with it. *)
Theorem ParseIdentifierExpr_call_args :
  (forall fuel : nat, (8 <= fuel)%nat ->
     CurTok (main_init "foo(y, 4.0)") = tok_identifier /\
     exists s',
       ParseIdentifierExpr fuel (main_init "foo(y, 4.0)") =
         Done (Some (CallExprAST "foo"
                       [VariableExprAST "y"; NumberExprAST 4.0])) s'
       /\ view_of s' = mkView "" [] EOF tok_eof)
  /\ (forall fuel Args s Arg s1,
        ParseExpression fuel s = Done (Some Arg) s1 ->
        (CurTok s1 = rparen ->
         ParseCallArgs (S fuel) Args s = Done (Some (Args ++ [Arg])%list) s1)
        /\ (CurTok s1 = comma ->
            ParseCallArgs (S fuel) Args s =
            ParseCallArgs fuel (Args ++ [Arg])%list (snd (getNextToken s1)))).
Proof.
  split.
  - intros fuel Hfuel. split; [reflexivity|].
    settle_run ParseIdentifierExpr_mono 8%nat.
  - intros fuel Args s Arg s1 HArg.
    rewrite ParseCallArgs_eq, HArg; cbn [bind].
    split; intros ->; reflexivity.
Qed.

Lemma ParseIdentifierExpr_call_args_witness :
  ((8 <= 8)%nat /\
   exists s',
     ParseIdentifierExpr 8 (main_init "foo(y, 4.0)") =
       Done (Some (CallExprAST "foo"
                     [VariableExprAST "y"; NumberExprAST 4.0])) s'
     /\ view_of s' = mkView "" [] EOF tok_eof)
  /\ ParseCallArgs 7 [] (after_tokens 2 (main_init "foo(y, 4.0)")) =
     ParseCallArgs 6 [VariableExprAST "y"]
       (after_tokens 1
          (set_BinopPrecedence (<[","%char := 0]> main_BinopPrecedence)
             (after_tokens 3 (main_init "foo(y, 4.0)")))).
Proof.
  split.
  - split; [lia|].
    apply (proj1 ParseIdentifierExpr_call_args 8%nat); lia.
  - refine (proj2 (proj2 ParseIdentifierExpr_call_args 6%nat []
                     (after_tokens 2 (main_init "foo(y, 4.0)"))
                     (VariableExprAST "y")
                     (set_BinopPrecedence
                        (<[","%char := 0]> main_BinopPrecedence)
                        (after_tokens 3 (main_init "foo(y, 4.0)"))) _) _);
      vm_compute; reflexivity.
Defined.

(** C10. On the input [foo()] [ParseIdentifierExpr] returns the call of
    [foo] with no argument; nothing is printed, and the lookahead has moved
    past the closing parenthesis (here onto end of input). *)
Theorem ParseIdentifierExpr_no_args :
  forall fuel : nat, (2 <= fuel)%nat ->
    CurTok (main_init "foo()") = tok_identifier /\
    exists s',
      ParseIdentifierExpr fuel (main_init "foo()") =
        Done (Some (CallExprAST "foo" [])) s'
      /\ view_of s' = mkView "" [] EOF tok_eof.
Proof.
  intros fuel Hfuel. split; [reflexivity|].
  settle_run ParseIdentifierExpr_mono 2%nat.
Qed.

Lemma ParseIdentifierExpr_no_args_witness :
  (2 <= 2)%nat /\
  exists s',
    ParseIdentifierExpr 2 (main_init "foo()") =
      Done (Some (CallExprAST "foo" [])) s'
    /\ view_of s' = mkView "" [] EOF tok_eof.
Proof.
  split; [lia|].
  apply (ParseIdentifierExpr_no_args 2); lia.
Defined.

(* ===================================================================== *)
(** * Tokens that do not continue an expression *)
(* ===================================================================== *)

Lemma isascii_range (c : Z) : isascii c = true <-> 0 <= c <= 127.
Proof. unfold isascii, between. lia. Qed.

Lemma GetTokPrecedence_view (s : state) :
  view_of (snd (GetTokPrecedence s)) = view_of s.
Proof.
  unfold GetTokPrecedence. destruct (negb (isascii (CurTok s))); [reflexivity|].
  destruct (subscript _ _) as [p m]. now destruct (p <=? 0).
Qed.

(** The keyword, identifier, number and end-of-input tokens are negative,
    hence no operators whatever the table holds. *)
Lemma named_token_not_binary_operator (s : state) :
  In (CurTok s) [tok_eof; tok_def; tok_extern; tok_identifier; tok_number] ->
  not_binary_operator s.
Proof.
  intros H. left. cbn [In] in H.
  unfold tok_eof, tok_def, tok_extern, tok_identifier, tok_number in H. lia.
Qed.

(** With the table [main] installs, [)], [,] and [;] are no operators. *)
Lemma punctuation_not_binary_operator (s : state) :
  BinopPrecedence s = main_BinopPrecedence ->
  In (CurTok s) [rparen; comma; 59] ->
  not_binary_operator s.
Proof.
  intros Hm H. right; right; left. rewrite Hm. cbn [In] in H.
  destruct H as [<-|[<-|[<-|[]]]]; vm_compute; reflexivity.
Qed.

(** C5. When the current token is not a binary operator,
    [GetTokPrecedence] answers -1 and [ParseBinOpRHS] called with
    [ExprPrec = 0] returns its [LHS] as it is, having read nothing: the
    input, the buffered character and [CurTok] are what they were. *)
Theorem ParseBinOpRHS_not_binary_operator :
  forall s : state, not_binary_operator s ->
    fst (GetTokPrecedence s) = -1 /\
    forall (fuel : nat) (LHS : ExprAST),
    exists s',
      ParseBinOpRHS (S fuel) 0 LHS s = Done (Some LHS) s' /\
      view_of s' = view_of s /\
      IdentifierStr s' = IdentifierStr s /\ NumVal s' = NumVal s.
Proof.
  intros s Hs.
  assert (Hprec : fst (GetTokPrecedence s) = -1).
  { unfold GetTokPrecedence.
    destruct (isascii (CurTok s)) eqn:Hascii; cbn [negb]; [|reflexivity].
    apply isascii_range in Hascii. unfold subscript.
    destruct Hs as [H|[H|[H|(p & H & Hp)]]]; try lia; rewrite H.
    - reflexivity.
    - destruct (p <=? 0) eqn:E; [reflexivity|lia]. }
  split; [exact Hprec|]. intros fuel LHS.
  exists (snd (GetTokPrecedence s)).
  rewrite ParseBinOpRHS_eq; cbv zeta. rewrite Hprec. cbn [Z.ltb Z.compare].
  split; [reflexivity|]. split; [apply GetTokPrecedence_view|].
  unfold GetTokPrecedence. destruct (negb (isascii (CurTok s))); [now split|].
  destruct (subscript _ _) as [p m]. now destruct (p <=? 0).
Qed.

Lemma ParseBinOpRHS_not_binary_operator_witness :
  not_binary_operator (main_init ")") /\
  fst (GetTokPrecedence (main_init ")")) = -1 /\
  exists s',
    ParseBinOpRHS 1 0 (NumberExprAST 1) (main_init ")") =
      Done (Some (NumberExprAST 1)) s' /\
    view_of s' = view_of (main_init ")") /\
    IdentifierStr s' = IdentifierStr (main_init ")") /\
    NumVal s' = NumVal (main_init ")").
Proof.
  assert (H : not_binary_operator (main_init ")")).
  { right; right; left. vm_compute. reflexivity. }
  split; [exact H|].
  split.
  - exact (proj1 (ParseBinOpRHS_not_binary_operator (main_init ")") H)).
  - exact (proj2 (ParseBinOpRHS_not_binary_operator (main_init ")") H)
             0%nat (NumberExprAST 1)).
Defined.

(* ===================================================================== *)
(** * Parenthesised expressions *)
(* ===================================================================== *)

(** C6. [ParseParenExpr] reads one token (the opening parenthesis it was
    called on), parses an expression, and then: if the current token is
    [)] it reads one more token and returns the very expression it parsed;
    otherwise it reports "expected ')'" and returns null.  On the input
    [(1+2)*3] the expression parser therefore returns [(1 + 2) * 3], with
    no node for the parentheses, and on [(1+2] it fails with that message. *)
Theorem ParseParenExpr_spec :
  (forall (fuel : nat) (s : state) (V : ExprAST) (s2 : state),
      ParseExpression fuel (snd (getNextToken s)) = Done (Some V) s2 ->
      ParseParenExpr (S fuel) s =
        if CurTok s2 =? rparen
        then Done (Some V) (snd (getNextToken s2))
        else Done None (log "expected ')'" s2))
  /\ (forall fuel : nat, (8 <= fuel)%nat ->
        CurTok (main_init "(1+2)*3") = lparen /\
        exists s',
          ParseExpression fuel (main_init "(1+2)*3") =
            Done (Some (BinaryExprAST "*"
                          (BinaryExprAST "+" (NumberExprAST 1)
                                             (NumberExprAST 2))
                          (NumberExprAST 3))) s'
          /\ view_of s' = mkView "" [] EOF tok_eof)
  /\ (forall fuel : nat, (8 <= fuel)%nat ->
        exists s',
          ParseParenExpr fuel (main_init "(1+2") = Done None s'
          /\ view_of s' = mkView "" ["expected ')'"] EOF tok_eof).
Proof.
  split; [|split].
  - intros fuel s V s2 HV. rewrite ParseParenExpr_eq, HV; cbn [bind].
    now destruct (CurTok s2 =? rparen).
  - intros fuel Hfuel. split; [reflexivity|].
    settle_run ParseExpression_mono 8%nat.
  - intros fuel Hfuel. settle_run ParseParenExpr_mono 8%nat.
Qed.

Lemma ParseParenExpr_spec_witness :
  ParseParenExpr 8 (main_init "(1+2)") =
    Done (Some (BinaryExprAST "+" (NumberExprAST 1) (NumberExprAST 2)))
      (after_tokens 1
         (set_BinopPrecedence (<[")"%char := 0]> main_BinopPrecedence)
            (after_tokens 4 (main_init "(1+2)"))))
  /\ ((8 <= 10)%nat /\
      exists s',
        ParseExpression 10 (main_init "(1+2)*3") =
          Done (Some (BinaryExprAST "*"
                        (BinaryExprAST "+" (NumberExprAST 1)
                                           (NumberExprAST 2))
                        (NumberExprAST 3))) s'
        /\ view_of s' = mkView "" [] EOF tok_eof)
  /\ ((8 <= 8)%nat /\
      exists s',
        ParseParenExpr 8 (main_init "(1+2") = Done None s'
        /\ view_of s' = mkView "" ["expected ')'"] EOF tok_eof).
Proof.
  split; [|split].
  - refine (proj1 ParseParenExpr_spec 7%nat (main_init "(1+2)")
              (BinaryExprAST "+" (NumberExprAST 1) (NumberExprAST 2))
              (set_BinopPrecedence (<[")"%char := 0]> main_BinopPrecedence)
                 (after_tokens 4 (main_init "(1+2)"))) _).
    vm_compute. reflexivity.
  - split; [lia|].
    apply (proj1 (proj2 ParseParenExpr_spec) 10%nat); lia.
  - split; [lia|].
    apply (proj2 (proj2 ParseParenExpr_spec) 8%nat); lia.
Defined.

(* ===================================================================== *)
(** * Failure propagation *)
(* ===================================================================== *)

Lemma getNextToken_stderr (s : state) :
  stderr (snd (getNextToken s)) = stderr s.
Proof.
  unfold getNextToken, gettok.
  generalize (String.length (stdin s)) as d. intros d; revert s.
  induction d as [|d IH]; intros s; cbn [gettok_rec];
    destruct (skip_whitespace _ _) as [c inp];
    (destruct (isalpha c);
     [ destruct (read_identifier _ _) as [[id c'] inp'];
       destruct (String.eqb id "def"); [reflexivity|];
       destruct (String.eqb id "extern"); reflexivity |]);
    (destruct (isdigit c || (c =? 46));
     [ destruct (read_number _ _) as [[num c'] inp']; reflexivity |]);
    (destruct (c =? 35);
     [ destruct (skip_comment inp) as [c' inp'];
       destruct (negb (c' =? EOF)); [|reflexivity]
     | destruct (c =? EOF); [reflexivity|];
       destruct (getchar inp); reflexivity ]).
  - reflexivity.
  - specialize (IH (set_input c' inp' s)).
    destruct (gettok_rec d (set_input c' inp' s)) as [t s']. exact IH.
Qed.

Lemma GetTokPrecedence_stderr (s : state) :
  stderr (snd (GetTokPrecedence s)) = stderr s.
Proof.
  pose proof (GetTokPrecedence_view s) as H.
  apply (f_equal v_stderr) in H. exact H.
Qed.

Lemma reported_LogError {A : Type} (msg : string) (s : state) :
  reported (A := A) (stderr s) (LogError msg s).
Proof. now exists msg, s. Qed.

Lemma reported_bind {A B : Type} (e : list string)
  (m : outcome (option A)) (k : option A -> state -> outcome (option B)) :
  reported e m ->
  (forall s, k None s = Done None s) ->
  (forall r s, stderr s = e -> reported e (k (Some r) s)) ->
  reported e (bind m k).
Proof.
  intros Hm Hnone Hsome. destruct m as [[r|] s|]; cbn [bind reported] in *.
  - now apply Hsome.
  - now rewrite Hnone.
  - exact I.
Qed.

Ltac reported_step :=
  first
    [ apply reported_LogError
    | match goal with
      | H : stderr ?s = ?e |- reported ?e (LogError _ ?s) =>
          rewrite <- H; apply reported_LogError
      | |- reported _ (Done (Some _) _) => cbn [reported]
      | |- reported _ (if ?b then _ else _) => destruct b
      | |- reported _ (let _ := _ in _) => cbv zeta
      end
    | apply reported_bind; [|reflexivity|intros ? ? ?] ].

Lemma parser_reported_all : forall n, parser_reported n.
Proof.
  induction n as [|n (IHe & IHp & IHpar & IHid & IHargs & IHrhs)].
  - repeat split; intros; exact I.
  - repeat split; intros.
    + rewrite ParseExpression_eq. repeat reported_step; [apply IHp|].
      match goal with H : stderr _ = _ |- _ => rewrite <- H end. apply IHrhs.
    + rewrite ParsePrimary_eq. repeat reported_step.
      * apply IHid.
      * unfold ParseNumberExpr.
        pose proof (getNextToken_stderr s) as H.
        destruct (getNextToken s) as [t s1]. exact H.
      * apply IHpar.
    + rewrite ParseParenExpr_eq. repeat reported_step.
      * rewrite <- (getNextToken_stderr s). apply IHe.
      * now rewrite getNextToken_stderr.
    + rewrite ParseIdentifierExpr_eq. repeat reported_step.
      * apply getNextToken_stderr.
      * rewrite <- (getNextToken_stderr s),
          <- (getNextToken_stderr (snd (getNextToken s))). apply IHargs.
      * now rewrite !getNextToken_stderr.
      * now rewrite getNextToken_stderr.
    + rewrite ParseCallArgs_eq. repeat reported_step; [apply IHe|assumption|].
      match goal with H : stderr ?s1 = _ |- _ =>
        rewrite <- H, <- (getNextToken_stderr s1) end. apply IHargs.
    + rewrite ParseBinOpRHS_eq. repeat reported_step.
      * apply GetTokPrecedence_stderr.
      * rewrite <- (GetTokPrecedence_stderr s),
          <- (getNextToken_stderr (snd (GetTokPrecedence s))). apply IHp.
      * match goal with H : stderr ?s3 = _ |- _ =>
          rewrite <- H, <- (GetTokPrecedence_stderr s3) end. apply IHrhs.
      * match goal with H : stderr ?s3 = _ |- _ =>
          rewrite <- H; apply GetTokPrecedence_stderr end.
      * match goal with H : stderr ?s5 = _ |- _ => rewrite <- H end.
        apply IHrhs.
Qed.

Lemma ParsePrototypeArgs_stderr : forall n a s r sf,
  ParsePrototypeArgs n a s = Done r sf -> stderr sf = stderr s.
Proof.
  induction n as [|n IH]; intros a s r sf; [discriminate|].
  rewrite ParsePrototypeArgs_eq; cbv zeta.
  destruct (_ =? tok_identifier).
  - intros H. apply IH in H. now rewrite getNextToken_stderr in H.
  - intros [= _ <-]. apply getNextToken_stderr.
Qed.

Lemma ParsePrototype_reported (n : nat) (s : state) :
  reported (stderr s) (ParsePrototype n s).
Proof.
  unfold ParsePrototype.
  destruct (negb (CurTok s =? tok_identifier)); [apply reported_LogError|].
  pose proof (getNextToken_stderr s) as H1.
  destruct (getNextToken s) as [t s1]; cbn [snd] in H1.
  destruct (negb (CurTok s1 =? lparen));
    [rewrite <- H1; apply reported_LogError|].
  destruct (ParsePrototypeArgs n [] s1) as [a s2|] eqn:E; cbn [bind];
    [|exact I].
  apply ParsePrototypeArgs_stderr in E. rewrite H1 in E.
  destruct (negb (CurTok s2 =? rparen));
    [rewrite <- E; apply reported_LogError|].
  pose proof (getNextToken_stderr s2) as H3.
  destruct (getNextToken s2) as [t' s3]; cbn [snd reported] in *. congruence.
Qed.

Lemma ParseDefinition_reported (n : nat) (s : state) :
  reported (stderr s) (ParseDefinition n s).
Proof.
  unfold ParseDefinition.
  pose proof (getNextToken_stderr s) as H1.
  destruct (getNextToken s) as [t s1]; cbn [snd] in H1. rewrite <- H1.
  apply reported_bind; [apply ParsePrototype_reported|reflexivity|].
  intros P s2 H2.
  pose proof (proj1 (parser_reported_all n) s2) as HE. rewrite H2 in HE.
  destruct (ParseExpression n s2) as [[E|] s3|]; cbn [bind reported] in *;
    assumption.
Qed.

Lemma ParseTopLevelExpr_reported (n : nat) (s : state) :
  reported (stderr s) (ParseTopLevelExpr n s).
Proof.
  unfold ParseTopLevelExpr.
  pose proof (proj1 (parser_reported_all n) s) as HE.
  destruct (ParseExpression n s) as [[E|] s1|]; cbn [bind reported] in *;
    assumption.
Qed.

Lemma ParseExtern_reported (n : nat) (s : state) :
  reported (stderr s) (ParseExtern n s).
Proof.
  unfold ParseExtern.
  pose proof (getNextToken_stderr s) as H1.
  destruct (getNextToken s) as [t s1]; cbn [snd] in H1. rewrite <- H1.
  apply ParsePrototype_reported.
Qed.

(** C7. A rule whose sub-rule returns null returns null at once, in the
    state the sub-rule returned in: nothing is read or undone in between.
    This holds at every place where a rule calls a rule:
    - the prototype and the body inside [ParseDefinition];
    - the prototype inside [ParseExtern];
    - the expression inside [ParseTopLevelExpr] and [ParseParenExpr];
    - the expression inside the argument loop, the rest of the argument
      loop after a comma, and the argument loop inside
      [ParseIdentifierExpr];
    - the identifier expression and the parenthesised expression inside
      [ParsePrimary];
    - the primary and the operator tail inside [ParseExpression];
    - the primary, the nested right-hand side and the rest of the loop
      (after a node was built, with or without a nested right-hand side)
      inside [ParseBinOpRHS].
    Besides, a failing entry point has added exactly one message to the
    error stream. *)
Theorem failure_propagates :
  forall (fuel : nat) (s sf : state),
    (ParsePrototype fuel (snd (getNextToken s)) = Done None sf ->
     ParseDefinition fuel s = Done None sf)
    /\ (forall P s2,
          ParsePrototype fuel (snd (getNextToken s)) = Done (Some P) s2 ->
          ParseExpression fuel s2 = Done None sf ->
          ParseDefinition fuel s = Done None sf)
    /\ (ParsePrototype fuel (snd (getNextToken s)) = Done None sf ->
        ParseExtern fuel s = Done None sf)
    /\ (ParseExpression fuel s = Done None sf ->
        ParseTopLevelExpr fuel s = Done None sf)
    /\ (ParseExpression fuel (snd (getNextToken s)) = Done None sf ->
        ParseParenExpr (S fuel) s = Done None sf)
    /\ (forall Args,
          ParseExpression fuel s = Done None sf ->
          ParseCallArgs (S fuel) Args s = Done None sf)
    /\ (CurTok (after_tokens 1 s) = lparen ->
        CurTok (after_tokens 2 s) <> rparen ->
        ParseCallArgs fuel [] (after_tokens 2 s) = Done None sf ->
        ParseIdentifierExpr (S fuel) s = Done None sf)
    /\ (ParsePrimary fuel s = Done None sf ->
        ParseExpression (S fuel) s = Done None sf)
    /\ (forall LHS s1,
          ParsePrimary fuel s = Done (Some LHS) s1 ->
          ParseBinOpRHS fuel 0 LHS s1 = Done None sf ->
          ParseExpression (S fuel) s = Done None sf)
    /\ (forall ExprPrec LHS,
          ExprPrec <= fst (GetTokPrecedence s) ->
          ParsePrimary fuel (snd (getNextToken (snd (GetTokPrecedence s))))
            = Done None sf ->
          ParseBinOpRHS (S fuel) ExprPrec LHS s = Done None sf)
    /\ (forall ExprPrec LHS RHS s3,
          ExprPrec <= fst (GetTokPrecedence s) ->
          ParsePrimary fuel (snd (getNextToken (snd (GetTokPrecedence s))))
            = Done (Some RHS) s3 ->
          fst (GetTokPrecedence s) < fst (GetTokPrecedence s3) ->
          ParseBinOpRHS fuel (fst (GetTokPrecedence s) + 1) RHS
            (snd (GetTokPrecedence s3)) = Done None sf ->
          ParseBinOpRHS (S fuel) ExprPrec LHS s = Done None sf)
    /\ (CurTok s = tok_identifier ->
        ParseIdentifierExpr fuel s = Done None sf ->
        ParsePrimary (S fuel) s = Done None sf)
    /\ (CurTok s = lparen ->
        ParseParenExpr fuel s = Done None sf ->
        ParsePrimary (S fuel) s = Done None sf)
    /\ (forall Args Arg s1,
          ParseExpression fuel s = Done (Some Arg) s1 ->
          CurTok s1 = comma ->
          ParseCallArgs fuel (Args ++ [Arg])%list (snd (getNextToken s1))
            = Done None sf ->
          ParseCallArgs (S fuel) Args s = Done None sf)
    /\ (forall ExprPrec LHS RHS s3,
          ExprPrec <= fst (GetTokPrecedence s) ->
          ParsePrimary fuel (snd (getNextToken (snd (GetTokPrecedence s))))
            = Done (Some RHS) s3 ->
          fst (GetTokPrecedence s3) <= fst (GetTokPrecedence s) ->
          ParseBinOpRHS fuel ExprPrec
            (BinaryExprAST (char_of_int (CurTok (snd (GetTokPrecedence s))))
                           LHS RHS)
            (snd (GetTokPrecedence s3)) = Done None sf ->
          ParseBinOpRHS (S fuel) ExprPrec LHS s = Done None sf)
    /\ (forall ExprPrec LHS RHS s3 RHS' s5,
          ExprPrec <= fst (GetTokPrecedence s) ->
          ParsePrimary fuel (snd (getNextToken (snd (GetTokPrecedence s))))
            = Done (Some RHS) s3 ->
          fst (GetTokPrecedence s) < fst (GetTokPrecedence s3) ->
          ParseBinOpRHS fuel (fst (GetTokPrecedence s) + 1) RHS
            (snd (GetTokPrecedence s3)) = Done (Some RHS') s5 ->
          ParseBinOpRHS fuel ExprPrec
            (BinaryExprAST (char_of_int (CurTok (snd (GetTokPrecedence s))))
                           LHS RHS') s5 = Done None sf ->
          ParseBinOpRHS (S fuel) ExprPrec LHS s = Done None sf)
    /\ (reported (stderr s) (ParseDefinition fuel s)
        /\ reported (stderr s) (ParseExtern fuel s)
        /\ reported (stderr s) (ParseTopLevelExpr fuel s)).
Proof.
  intros fuel s sf.
  repeat match goal with |- _ /\ _ => split end;
    try apply ParseDefinition_reported; try apply ParseExtern_reported;
    try apply ParseTopLevelExpr_reported.
  - intros H. unfold ParseDefinition.
    destruct (getNextToken s) as [t s1]; cbn [snd] in H. now rewrite H.
  - intros P s2 HP HE. unfold ParseDefinition.
    destruct (getNextToken s) as [t s1]; cbn [snd] in HP.
    rewrite HP; cbn [bind]. now rewrite HE.
  - intros H. unfold ParseExtern.
    now destruct (getNextToken s) as [t s1].
  - intros H. unfold ParseTopLevelExpr. now rewrite H.
  - intros H. now rewrite ParseParenExpr_eq, H.
  - intros Args H. now rewrite ParseCallArgs_eq, H.
  - cbn [after_tokens]. intros H1 H2 H.
    rewrite ParseIdentifierExpr_eq; cbv zeta.
    apply Z.eqb_eq in H1. apply Z.eqb_neq in H2.
    now rewrite H1, H2, H.
  - intros H. now rewrite ParseExpression_eq, H.
  - intros LHS s1 H1 H2. now rewrite ParseExpression_eq, H1.
  - intros ExprPrec LHS Hle H. rewrite ParseBinOpRHS_eq; cbv zeta.
    apply Z.ltb_ge in Hle. now rewrite Hle, H.
  - intros ExprPrec LHS RHS s3 Hle H3 Hlt H.
    rewrite ParseBinOpRHS_eq; cbv zeta.
    apply Z.ltb_ge in Hle. apply Z.ltb_lt in Hlt.
    now rewrite Hle, H3; cbn [bind]; rewrite Hlt, H.
  - intros Hc H. rewrite ParsePrimary_eq.
    apply Z.eqb_eq in Hc. now rewrite Hc.
  - intros Hc H. rewrite ParsePrimary_eq, Hc. exact H.
  - intros Args Arg s1 HE Hc H. rewrite ParseCallArgs_eq, HE; cbn [bind].
    rewrite Hc. exact H.
  - intros ExprPrec LHS RHS s3 Hle H3 Hge H.
    rewrite ParseBinOpRHS_eq; cbv zeta.
    apply Z.ltb_ge in Hle, Hge.
    now rewrite Hle, H3; cbn [bind]; rewrite Hge; cbn [bind].
  - intros ExprPrec LHS RHS s3 RHS' s5 Hle H3 Hlt HR H.
    rewrite ParseBinOpRHS_eq; cbv zeta.
    apply Z.ltb_ge in Hle. apply Z.ltb_lt in Hlt.
    now rewrite Hle, H3; cbn [bind]; rewrite Hlt, HR; cbn [bind].
Qed.

Lemma failure_propagates_witness :
  ParseDefinition 8 (main_init "def (x) x") =
    Done None (log "Expected function name in prototype"
                 (after_tokens 1 (main_init "def (x) x")))
  /\ ParseParenExpr 8 (main_init "(+1)") =
       Done None (log "unknown token when expecting an expression"
                    (after_tokens 1 (main_init "(+1)")))
  /\ ParsePrimary 9 (main_init "(+1)") =
       Done None (log "unknown token when expecting an expression"
                    (after_tokens 1 (main_init "(+1)"))).
Proof.
  split; [|split].
  - refine (proj1 (failure_propagates 8%nat (main_init "def (x) x")
                     (log "Expected function name in prototype"
                        (after_tokens 1 (main_init "def (x) x")))) _).
    vm_compute. reflexivity.
  - refine (proj1 (proj2 (proj2 (proj2 (proj2
              (failure_propagates 7%nat (main_init "(+1)")
                 (log "unknown token when expecting an expression"
                    (after_tokens 1 (main_init "(+1)")))))))) _).
    vm_compute. reflexivity.
  - destruct (failure_propagates 8%nat (main_init "(+1)")
                (log "unknown token when expecting an expression"
                   (after_tokens 1 (main_init "(+1)"))))
      as (_ & _ & _ & _ & _ & _ & _ & _ & _ & _ & _ & _ & H & _).
    apply H; [reflexivity|vm_compute; reflexivity].
Defined.

(* ===================================================================== *)
(** * The lexer, one call at a time *)
(* ===================================================================== *)

Lemma gettok_rec_eq (d : nat) (s : state) :
  gettok_rec d s =
  gettok_body (match d with
               | S d' => gettok_rec d'
               | O => fun s' => (tok_eof, s')
               end) s.
Proof. destruct d; reflexivity. Qed.

Lemma int_of_char_range (a : ascii) : 0 <= int_of_char a < 256.
Proof.
  unfold int_of_char. pose proof (N_ascii_bounded a). lia.
Qed.

Lemma skip_whitespace_length : forall inp c,
  (String.length (snd (skip_whitespace c inp)) <= String.length inp)%nat.
Proof.
  induction inp as [|a r IH]; intros c; cbn [skip_whitespace];
    destruct (isspace c); cbn [snd String.length]; try lia.
  specialize (IH (int_of_char a)). lia.
Qed.

Lemma skip_comment_length : forall inp,
  fst (skip_comment inp) <> EOF ->
  (String.length (snd (skip_comment inp)) < String.length inp)%nat.
Proof.
  induction inp as [|a r IH]; cbn [skip_comment]; [now cbn|].
  destruct (_ || _); cbn [fst snd String.length]; [lia|].
  intros H. specialize (IH H). lia.
Qed.

(** Only nested calls on a strictly shorter input matter. *)
Lemma gettok_body_ext (rec1 rec2 : state -> Z * state) (s : state) :
  (forall c' inp',
      c' <> EOF ->
      (String.length inp' < String.length (stdin s))%nat ->
      rec1 (set_input c' inp' s) = rec2 (set_input c' inp' s)) ->
  gettok_body rec1 s = gettok_body rec2 s.
Proof.
  intros Hrec. unfold gettok_body.
  pose proof (skip_whitespace_length (stdin s) (LastChar s)) as Hws.
  destruct (skip_whitespace _ _) as [c inp]; cbn [snd] in Hws.
  destruct (isalpha c); [reflexivity|].
  destruct (isdigit c || (c =? 46)); [reflexivity|].
  destruct (c =? 35); [|reflexivity].
  pose proof (skip_comment_length inp) as Hc.
  destruct (skip_comment inp) as [c' inp']; cbn [fst snd] in Hc.
  destruct (c' =? EOF) eqn:E; cbn [negb]; [reflexivity|].
  apply Z.eqb_neq in E. apply Hrec; [exact E|]. specialize (Hc E). lia.
Qed.

Lemma gettok_rec_depth : forall d1 d2 s,
  (String.length (stdin s) <= d1)%nat ->
  (String.length (stdin s) <= d2)%nat ->
  gettok_rec d1 s = gettok_rec d2 s.
Proof.
  induction d1 as [|d1 IH]; intros d2 s H1 H2;
    rewrite (gettok_rec_eq _ s), (gettok_rec_eq d2 s);
    apply gettok_body_ext; intros c' inp' _ Hlen; [lia|].
  destruct d2 as [|d2]; [lia|]. apply IH; cbn [stdin set_input]; lia.
Qed.

(** [gettok] satisfies the equation of the C++ function: the call after a
    comment is a call of [gettok] itself. *)
Lemma gettok_unfold (s : state) : gettok s = gettok_body gettok s.
Proof.
  unfold gettok at 1. rewrite gettok_rec_eq. apply gettok_body_ext.
  intros c' inp' _ Hlen. unfold gettok; cbn [stdin set_input].
  destruct (String.length (stdin s)) as [|d]; [lia|].
  apply gettok_rec_depth; cbn [stdin set_input]; lia.
Qed.

(** [gettok] looks at the buffered character and the unread input only
    through what the whitespace loop makes of them. *)
Lemma gettok_body_input (rec : state -> Z * state) (s : state)
  (c : Z) (inp : string) :
  skip_whitespace c inp = skip_whitespace (LastChar s) (stdin s) ->
  gettok_body rec (set_input c inp s) = gettok_body rec s.
Proof.
  intros H. unfold gettok_body. cbn [LastChar stdin set_input]. rewrite H.
  clear H. destruct (skip_whitespace _ _) as [c1 inp1].
  destruct (isalpha c1).
  { now destruct (read_identifier _ _) as [[id c'] inp']. }
  destruct (isdigit c1 || (c1 =? 46)).
  { now destruct (read_number _ _) as [[num c'] inp']. }
  destruct (c1 =? 35).
  { now destruct (skip_comment inp1) as [c' inp']. }
  destruct (c1 =? EOF); [reflexivity|].
  now destruct (getchar inp1).
Qed.

Lemma gettok_input (s : state) (c : Z) (inp : string) :
  skip_whitespace c inp = skip_whitespace (LastChar s) (stdin s) ->
  gettok (set_input c inp s) = gettok s.
Proof.
  intros H. rewrite (gettok_unfold s), (gettok_unfold (set_input c inp s)).
  now apply gettok_body_input.
Qed.

Lemma skip_whitespace_stop (c : Z) (inp : string) :
  isspace c = false -> skip_whitespace c inp = (c, inp).
Proof. intros H. destruct inp; cbn [skip_whitespace]; now rewrite H. Qed.

Lemma skip_whitespace_step (c : Z) (inp : string) :
  isspace c = true ->
  skip_whitespace c inp =
  skip_whitespace (fst (getchar inp)) (snd (getchar inp)).
Proof.
  intros H. destruct inp as [|a r]; cbn [skip_whitespace getchar fst snd];
    rewrite H; reflexivity.
Qed.

(* ===================================================================== *)
(** * Whitespace and single-character tokens *)
(* ===================================================================== *)

(** C9, as stated, fails: a vertical tab (11) is none of the four listed
    characters, yet it is skipped.  With [\v] buffered and [+] unread,
    [gettok] returns [+], not the vertical tab. *)
Lemma vertical_tab_is_not_a_token :
  fst (gettok (set_input 11 "+" (initial ""))) = 43 /\
  ~ (skips listed_whitespace /\ single_char_tokens listed_whitespace).
Proof.
  split; [vm_compute; reflexivity|].
  intros [_ H].
  specialize (H (set_input 11 "+" (initial ""))).
  cbn [LastChar set_input] in H.
  assert (E : gettok (set_input 11 "+" (initial "")) =
              (11, advance (set_input 11 "+" (initial ""))))
    by (apply H; (reflexivity || discriminate)).
  apply (f_equal fst) in E. vm_compute in E. discriminate E.
Qed.

(** C9, amended: the characters skipped are those of [isspace] (space and
    the five controls \t \n \v \f \r), and every buffered character that is
    none of these, not a letter, not a digit or a dot, not [#] and not
    [EOF] is returned as the token, one character being read. *)
Theorem gettok_isspace_single_char :
  (forall c : Z,
      isspace c = true <->
      c = 32 \/ c = 9 \/ c = 10 \/ c = 11 \/ c = 12 \/ c = 13)
  /\ skips isspace
  /\ single_char_tokens isspace.
Proof.
  split; [|split].
  - intros c. unfold isspace, between. lia.
  - intros s Hs. symmetry. apply gettok_input.
    symmetry. now apply skip_whitespace_step.
  - intros s Hws Halpha Hdigit Hdot Hhash Heof.
    rewrite gettok_unfold. unfold gettok_body.
    rewrite (skip_whitespace_stop _ _ Hws), Halpha, Hdigit.
    apply Z.eqb_neq in Hdot, Hhash, Heof. rewrite Hdot, Hhash, Heof.
    cbn [orb]. unfold advance. now destruct (getchar (stdin s)).
Qed.

Lemma gettok_isspace_single_char_witness :
  gettok (set_input 11 ";" (initial "")) =
    gettok (advance (set_input 11 ";" (initial "")))
  /\ gettok (set_input 59 "x" (initial "")) =
       (59, advance (set_input 59 "x" (initial ""))).
Proof.
  split.
  - apply (proj1 (proj2 gettok_isspace_single_char)). reflexivity.
  - apply (proj2 (proj2 gettok_isspace_single_char));
      (reflexivity || discriminate).
Defined.

(* ===================================================================== *)
(** * Comments *)
(* ===================================================================== *)

Lemma skip_comment_strip : forall inp,
  getchar (strip true inp) =
  (fst (skip_comment inp), strip false (snd (skip_comment inp))).
Proof.
  induction inp as [|a r IH]; [reflexivity|].
  cbn [strip skip_comment]. unfold is_linebreak.
  destruct (_ || _); [reflexivity|exact IH].
Qed.

Lemma skip_comment_stop : forall inp,
  fst (skip_comment inp) = EOF \/ fst (skip_comment inp) = 10 \/
  fst (skip_comment inp) = 13.
Proof.
  induction inp as [|a r IH]; [now left|]. cbn [skip_comment].
  destruct (int_of_char a =? 10) eqn:E1; cbn [orb fst].
  { right; left. now apply Z.eqb_eq. }
  destruct (int_of_char a =? 13) eqn:E2; cbn [fst]; [|exact IH].
  right; right. now apply Z.eqb_eq.
Qed.

(** What is left after a comment starts with nothing a token is made of. *)
Lemma strip_stream_hash (inp : string) :
  let c := fst (strip_stream 35 inp) in c = EOF \/ c = 10 \/ c = 13.
Proof.
  unfold strip_stream; cbn [Z.eqb Pos.eqb]. rewrite skip_comment_strip.
  apply skip_comment_stop.
Qed.

Lemma getchar_eta (inp : string) :
  inp = EmptyString /\ getchar inp = (EOF, EmptyString) \/
  exists a r, inp = String a r /\ getchar inp = (int_of_char a, r).
Proof. destruct inp as [|a r]; [now left|right; now exists a, r]. Qed.

Lemma read_identifier_strip : forall inp id,
  read_identifier id (strip false inp) =
  (fst (fst (read_identifier id inp)),
   fst (strip_stream (snd (fst (read_identifier id inp)))
                     (snd (read_identifier id inp))),
   snd (strip_stream (snd (fst (read_identifier id inp)))
                     (snd (read_identifier id inp)))).
Proof.
  induction inp as [|a r IH]; intros id; [reflexivity|].
  cbn [strip read_identifier].
  destruct (int_of_char a =? 35) eqn:E.
  - apply Z.eqb_eq in E. rewrite E. cbn [isalnum isalpha isupper islower
      isdigit between Z.leb Z.compare Pos.compare Pos.compare_cont andb orb
      fst snd].
    pose proof (strip_stream_hash r) as Hc. cbv zeta in Hc.
    unfold strip_stream in *; cbn [Z.eqb Pos.eqb] in *.
    destruct (getchar_eta (strip true r)) as [[-> _]|(b & r' & Hs & Hg)];
      [reflexivity|].
    rewrite Hs in *. rewrite Hg in Hc; cbn [fst snd getchar] in *. cbn [read_identifier].
    replace (isalnum (int_of_char b)) with false; [reflexivity|].
    destruct Hc as [Hc|[Hc|Hc]]; rewrite Hc; reflexivity.
  - cbn [read_identifier]. destruct (isalnum (int_of_char a)); [apply IH|].
    cbn [fst snd]. unfold strip_stream. now rewrite E.
Qed.

Lemma read_number_strip : forall inp num,
  read_number num (strip false inp) =
  (fst (fst (read_number num inp)),
   fst (strip_stream (snd (fst (read_number num inp)))
                     (snd (read_number num inp))),
   snd (strip_stream (snd (fst (read_number num inp)))
                     (snd (read_number num inp)))).
Proof.
  induction inp as [|a r IH]; intros num; [reflexivity|].
  cbn [strip read_number].
  destruct (int_of_char a =? 35) eqn:E.
  - apply Z.eqb_eq in E. rewrite E. cbn [isdigit between Z.leb Z.eqb
      Z.compare Pos.compare Pos.compare_cont Pos.eqb andb orb fst snd].
    pose proof (strip_stream_hash r) as Hc. cbv zeta in Hc.
    unfold strip_stream in *; cbn [Z.eqb Pos.eqb] in *.
    destruct (getchar_eta (strip true r)) as [[-> _]|(b & r' & Hs & Hg)];
      [reflexivity|].
    rewrite Hs in *. rewrite Hg in Hc; cbn [fst snd getchar] in *. cbn [read_number].
    replace (isdigit (int_of_char b) || (int_of_char b =? 46)) with false;
      [reflexivity|].
    destruct Hc as [Hc|[Hc|Hc]]; rewrite Hc; reflexivity.
  - cbn [read_number].
    destruct (isdigit (int_of_char a) || (int_of_char a =? 46)); [apply IH|].
    cbn [fst snd]. unfold strip_stream. now rewrite E.
Qed.

Lemma getchar_strip (inp : string) :
  getchar (strip false inp) =
  strip_stream (fst (getchar inp)) (snd (getchar inp)).
Proof.
  destruct inp as [|a r]; [reflexivity|].
  cbn [strip getchar fst snd]. unfold strip_stream.
  now destruct (int_of_char a =? 35).
Qed.

Lemma skip_whitespace_strip : forall inp c,
  c <> 35 ->
  skip_whitespace c (strip false inp) =
  if fst (skip_whitespace c inp) =? 35 then
    skip_whitespace
      (fst (skip_comment (snd (skip_whitespace c inp))))
      (strip false (snd (skip_comment (snd (skip_whitespace c inp)))))
  else (fst (skip_whitespace c inp), strip false (snd (skip_whitespace c inp))).
Proof.
  induction inp as [|a r IH]; intros c Hc.
  - cbn [strip skip_whitespace]. destruct (isspace c); cbn [fst snd].
    + reflexivity.
    + apply Z.eqb_neq in Hc. now rewrite Hc.
  - destruct (isspace c) eqn:Hsp.
    + rewrite (skip_whitespace_step c (String a r) Hsp).
      cbn [getchar fst snd strip].
      destruct (int_of_char a =? 35) eqn:E.
      * apply Z.eqb_eq in E. rewrite E.
        rewrite (skip_whitespace_stop 35 r) by reflexivity.
        cbn [fst snd Z.eqb Pos.eqb].
        rewrite (skip_whitespace_step c _ Hsp), skip_comment_strip.
        reflexivity.
      * rewrite <- IH by now apply Z.eqb_neq.
        now rewrite (skip_whitespace_step c (String a (strip false r)) Hsp).
    + rewrite !skip_whitespace_stop by exact Hsp. cbn [fst snd].
      apply Z.eqb_neq in Hc. now rewrite Hc.
Qed.

(** A call of [gettok] on a state whose buffered character is [#]. *)
Lemma gettok_hash (s : state) :
  LastChar s = 35 ->
  gettok s =
  if fst (skip_comment (stdin s)) =? EOF
  then (tok_eof, set_input EOF (snd (skip_comment (stdin s))) s)
  else gettok (set_input (fst (skip_comment (stdin s)))
                         (snd (skip_comment (stdin s))) s).
Proof.
  intros H. rewrite (gettok_unfold s) at 1. unfold gettok_body.
  rewrite H, (skip_whitespace_stop 35 _ eq_refl).
  cbn [isalpha isupper islower isdigit between Z.leb Z.eqb Z.compare
       Pos.compare Pos.compare_cont Pos.eqb andb orb].
  destruct (skip_comment (stdin s)) as [c' inp']; cbn [fst snd].
  destruct (c' =? EOF) eqn:E; cbn [negb]; [|reflexivity].
  apply Z.eqb_eq in E. now rewrite E.
Qed.

Lemma gettok_eof (s : state) (inp : string) :
  gettok (set_input EOF inp s) = (tok_eof, set_input EOF inp s).
Proof.
  rewrite gettok_unfold. unfold gettok_body. cbn [LastChar stdin set_input].
  now rewrite (skip_whitespace_stop EOF _ eq_refl).
Qed.

(** Lexing commutes with the removal of comments: the token and the side
    outputs are the same, and the states stay related. *)
Lemma gettok_strip_state : forall (n : nat) (s : state),
  String.length (stdin s) = n ->
  gettok (strip_state s) = (fst (gettok s), strip_state (snd (gettok s))).
Proof.
  induction n as [n IH] using lt_wf_ind. intros s Hn.
  destruct (LastChar s =? 35) eqn:Hhash.
  - (* the buffered character opens a comment *)
    apply Z.eqb_eq in Hhash. rewrite (gettok_hash s Hhash).
    unfold strip_state at 1, strip_stream. rewrite Hhash; cbn [Z.eqb Pos.eqb].
    rewrite skip_comment_strip; cbn [fst snd].
    pose proof (skip_comment_length (stdin s)) as Hlen.
    pose proof (skip_comment_stop (stdin s)) as Hstop.
    destruct (skip_comment (stdin s)) as [c' inp']; cbn [fst snd] in *.
    destruct (c' =? EOF) eqn:E.
    + apply Z.eqb_eq in E; subst c'. now rewrite gettok_eof.
    + apply Z.eqb_neq in E.
      rewrite <- (IH (String.length inp')) with (s := set_input c' inp' s);
        [|specialize (Hlen E); lia|reflexivity].
      unfold strip_state, strip_stream; cbn [LastChar stdin set_input].
      replace (c' =? 35) with false; [reflexivity|].
      destruct Hstop as [?|[?|?]]; subst c'; reflexivity || contradiction.
  - (* whitespace first, then one of the cases of [gettok] *)
    assert (Hs : strip_state s = set_input (LastChar s)
                                   (strip false (stdin s)) s).
    { unfold strip_state, strip_stream. now rewrite Hhash. }
    rewrite Hs. apply Z.eqb_neq in Hhash.
    pose proof (skip_whitespace_strip (stdin s) (LastChar s) Hhash) as Hws.
    pose proof (skip_whitespace_length (stdin s) (LastChar s)) as Hwl.
    rewrite (gettok_unfold s).
    destruct (skip_whitespace (LastChar s) (stdin s)) as [c1 inp1] eqn:Hsk.
    cbn [fst snd] in Hws, Hwl.
    destruct (c1 =? 35) eqn:Hc1.
    + (* a comment after the whitespace *)
      apply Z.eqb_eq in Hc1; subst c1. unfold gettok_body; rewrite Hsk.
      cbn [isalpha isupper islower isdigit between Z.leb Z.eqb Z.compare
           Pos.compare Pos.compare_cont Pos.eqb andb orb].
      pose proof (skip_comment_length inp1) as Hlen.
      pose proof (skip_comment_stop inp1) as Hstop.
      destruct (skip_comment inp1) as [c' inp']; cbn [fst snd] in *.
      assert (Hgo : gettok (set_input (LastChar s) (strip false (stdin s)) s)
                    = gettok (set_input c' (strip false inp') s)).
      { apply (gettok_input (set_input c' (strip false inp') s)).
        exact Hws. }
      rewrite Hgo. destruct (c' =? EOF) eqn:E; cbn [negb].
      * apply Z.eqb_eq in E; subst c'. now rewrite gettok_eof.
      * apply Z.eqb_neq in E.
        rewrite <- (IH (String.length inp')) with (s := set_input c' inp' s);
          [|specialize (Hlen E); lia|reflexivity].
        unfold strip_state, strip_stream; cbn [LastChar stdin set_input].
        replace (c' =? 35) with false; [reflexivity|].
        destruct Hstop as [?|[?|?]]; subst c'; reflexivity || contradiction.
    + (* the same case on both sides *)
      rewrite gettok_unfold. unfold gettok_body.
      cbn [LastChar stdin set_input]. rewrite Hws, Hsk. clear Hws Hsk.
      destruct (isalpha c1).
      { rewrite read_identifier_strip.
        destruct (read_identifier _ inp1) as [[id c2] inp2]; cbn [fst snd].
        unfold strip_state.
        destruct (String.eqb id "def"); [reflexivity|].
        destruct (String.eqb id "extern"); reflexivity. }
      destruct (isdigit c1 || (c1 =? 46)).
      { rewrite read_number_strip.
        now destruct (read_number _ inp1) as [[num c2] inp2]. }
      rewrite Hc1. destruct (c1 =? EOF) eqn:E.
      { unfold strip_state, strip_stream; cbn [LastChar stdin set_input fst snd].
        now rewrite Hc1. }
      rewrite getchar_strip. destruct (getchar inp1) as [c2 inp2].
      unfold strip_state; cbn [fst snd LastChar stdin set_input].
      now destruct (strip_stream c2 inp2).
Qed.

Lemma lex_strip_state : forall (n : nat) (s : state),
  lex n (strip_state s) = lex n s.
Proof.
  induction n as [|n IH]; intros s; [reflexivity|]. cbn [lex].
  rewrite (gettok_strip_state _ s eq_refl).
  destruct (gettok s) as [t s']; cbn [fst snd]. now rewrite IH.
Qed.

Lemma lex_complete_step : forall (n : nat) (s : state),
  ends_at_eof (lex n s) = true -> lex (S n) s = lex n s.
Proof.
  induction n as [|n IH]; intros s; [discriminate|].
  intros H. cbn [lex] in *. destruct (gettok s) as [t s'].
  destruct (t =? tok_eof) eqn:E; [reflexivity|].
  f_equal. apply IH. unfold ends_at_eof in *.
  destruct (lex n s') as [|x l] eqn:El.
  - cbn in H. rewrite E in H. discriminate H.
  - rewrite last_cons in H. destruct (last (x :: l)); [exact H|].
    cbn in H. rewrite E in H. discriminate H.
Qed.

Lemma lex_complete : forall (n m : nat) (s : state),
  ends_at_eof (lex n s) = true -> (n <= m)%nat -> lex m s = lex n s.
Proof.
  intros n m s H Hle. induction Hle as [|m _ IH]; [reflexivity|].
  rewrite <- IH. apply lex_complete_step. now rewrite IH.
Qed.

Lemma skip_comment_line : forall (body : string) (a : ascii) (rest : string),
  no_linebreak body = true -> is_linebreak a = true ->
  skip_comment (body ++ String a rest) = (int_of_char a, rest).
Proof.
  unfold is_linebreak.
  induction body as [|b body IH]; intros a rest Hb Ha; simpl.
  - now rewrite Ha.
  - cbn [no_linebreak] in Hb. apply andb_prop in Hb as [Hb1 Hb2].
    unfold is_linebreak in Hb1. apply negb_true_iff in Hb1. rewrite Hb1.
    now apply IH.
Qed.

Lemma skip_comment_last_line : forall body : string,
  no_linebreak body = true -> skip_comment body = (EOF, EmptyString).
Proof.
  induction body as [|b body IH]; intros Hb; [reflexivity|].
  cbn [no_linebreak skip_comment] in *. apply andb_prop in Hb as [Hb1 Hb2].
  unfold is_linebreak in Hb1. apply negb_true_iff in Hb1. rewrite Hb1.
  now apply IH.
Qed.

(** C8. Comments never produce a token.
    - The inputs [1 + 2 # comment\n+ 3] and [1 + 2 + 3] give the same
      tokens with the same payloads: number 1, [+], number 2, [+],
      number 3, end of input.
    - For every input and every number of calls, [gettok] returns the same
      tokens and payloads on the input and on the input with its comments
      removed.
    - A call of [gettok] that finds [#] buffered behaves as the call made
      at the line break that ends the comment, whatever the comment holds;
      when no line break follows, it returns [tok_eof]. *)
Theorem comments_are_elided :
  (forall n : nat, (6 <= n)%nat ->
      tokens n ("1 + 2 # comment" ++ newline ++ "+ 3") = sample_tokens /\
      tokens n "1 + 2 + 3" = sample_tokens)
  /\ (forall (n : nat) (inp : string),
        tokens n (strip_comments inp) = tokens n inp)
  /\ (forall (s : state) (body : string) (a : ascii) (rest : string),
        LastChar s = 35 ->
        no_linebreak body = true -> is_linebreak a = true ->
        stdin s = (body ++ String a rest)%string ->
        gettok s = gettok (set_input (int_of_char a) rest s))
  /\ (forall s : state,
        LastChar s = 35 -> no_linebreak (stdin s) = true ->
        gettok s = (tok_eof, set_input EOF "" s)).
Proof.
  split; [|split; [|split]].
  - intros n Hn. unfold tokens.
    split; (rewrite (lex_complete 6 n); [| |exact Hn]); vm_compute; reflexivity.
  - intros n inp. unfold tokens, strip_comments.
    now rewrite <- (lex_strip_state n (initial inp)).
  - intros s body a rest Hs Hb Ha Hin.
    rewrite (gettok_hash s Hs), Hin, (skip_comment_line _ _ _ Hb Ha).
    cbn [fst snd].
    replace (int_of_char a =? EOF) with false; [reflexivity|].
    symmetry. apply Z.eqb_neq. pose proof (int_of_char_range a).
    unfold EOF. lia.
  - intros s Hs Hb.
    now rewrite (gettok_hash s Hs), (skip_comment_last_line _ Hb).
Qed.

Lemma comments_are_elided_witness :
  ((6 <= 6)%nat /\
   tokens 6 ("1 + 2 # comment" ++ newline ++ "+ 3") = tokens 6 "1 + 2 + 3")
  /\ gettok (set_input 35 (" 2 * 3" ++ newline ++ "+ 4") (initial "")) =
     gettok (set_input 10 "+ 4" (initial ""))
  /\ gettok (set_input 35 " 2 * 3" (initial "")) =
     (tok_eof, set_input EOF "" (set_input 35 " 2 * 3" (initial ""))).
Proof.
  split; [|split].
  - split; [lia|].
    destruct (proj1 comments_are_elided 6%nat) as [H1 H2]; [lia|].
    rewrite H1, H2. reflexivity.
  - apply (proj1 (proj2 (proj2 comments_are_elided))
             (set_input 35 (" 2 * 3" ++ newline ++ "+ 4") (initial ""))
             " 2 * 3" "010"%char "+ 4"); reflexivity.
  - apply (proj2 (proj2 (proj2 comments_are_elided))
             (set_input 35 " 2 * 3" (initial ""))); reflexivity.
Defined.

(* ===================================================================== *)
(** * The lexer only moves forward *)
(* ===================================================================== *)

Lemma isspace_not_EOF (c : Z) : isspace c = true -> (c =? EOF) = false.
Proof. unfold isspace, between, EOF. lia. Qed.

Lemma int_of_char_not_EOF (a : ascii) : (int_of_char a =? EOF) = false.
Proof. pose proof (int_of_char_range a). unfold EOF. lia. Qed.

Lemma skip_whitespace_pending : forall inp c,
  (pending_chars (fst (skip_whitespace c inp)) (snd (skip_whitespace c inp))
   <= pending_chars c inp)%nat.
Proof.
  induction inp as [|a r IH]; intros c; cbn [skip_whitespace];
    destruct (isspace c) eqn:E; cbn [fst snd]; try lia.
  - unfold pending_chars. rewrite (isspace_not_EOF c E). cbn. lia.
  - specialize (IH (int_of_char a)). unfold pending_chars in *.
    rewrite (isspace_not_EOF c E), int_of_char_not_EOF in *.
    cbn [String.length]. lia.
Qed.

Lemma read_identifier_pending : forall inp id,
  (pending_chars (snd (fst (read_identifier id inp)))
                 (snd (read_identifier id inp)) <= String.length inp)%nat.
Proof.
  induction inp as [|a r IH]; intros id; cbn [read_identifier].
  - cbn. lia.
  - destruct (isalnum (int_of_char a)); cbn [fst snd String.length].
    + specialize (IH (id ++ String a EmptyString)%string). lia.
    + unfold pending_chars. rewrite int_of_char_not_EOF. lia.
Qed.

Lemma read_number_pending : forall inp num,
  (pending_chars (snd (fst (read_number num inp)))
                 (snd (read_number num inp)) <= String.length inp)%nat.
Proof.
  induction inp as [|a r IH]; intros num; cbn [read_number].
  - cbn. lia.
  - destruct (isdigit (int_of_char a) || (int_of_char a =? 46));
      cbn [fst snd String.length].
    + specialize (IH (num ++ String a EmptyString)%string). lia.
    + unfold pending_chars. rewrite int_of_char_not_EOF. lia.
Qed.

Lemma skip_comment_pending : forall inp,
  (pending_chars (fst (skip_comment inp)) (snd (skip_comment inp))
   <= String.length inp)%nat.
Proof.
  induction inp as [|a r IH]; cbn [skip_comment]; [cbn; lia|].
  destruct (_ || _); cbn [fst snd String.length]; [|lia].
  unfold pending_chars. rewrite int_of_char_not_EOF. lia.
Qed.

Lemma getchar_pending (inp : string) :
  pending_chars (fst (getchar inp)) (snd (getchar inp)) = String.length inp.
Proof.
  destruct inp as [|a r]; [reflexivity|]. cbn [getchar fst snd].
  unfold pending_chars. rewrite int_of_char_not_EOF. cbn [String.length]. lia.
Qed.

Lemma isalpha_not_EOF (c : Z) : isalpha c = true -> (c =? EOF) = false.
Proof. unfold isalpha, isupper, islower, between, EOF. lia. Qed.

Lemma isnumeral_not_EOF (c : Z) :
  isdigit c || (c =? 46) = true -> (c =? EOF) = false.
Proof. unfold isdigit, between, EOF. lia. Qed.

Lemma gettok_pending_aux : forall (n : nat) (s : state),
  String.length (stdin s) = n ->
  (pending (snd (gettok s)) <= pending s)%nat /\
  (fst (gettok s) <> tok_eof -> (pending (snd (gettok s)) < pending s)%nat).
Proof.
  induction n as [n IH] using lt_wf_ind. intros s Hn.
  rewrite gettok_unfold. unfold gettok_body.
  pose proof (skip_whitespace_pending (stdin s) (LastChar s)) as Hws.
  pose proof (skip_whitespace_length (stdin s) (LastChar s)) as Hwl.
  fold (pending s) in Hws.
  destruct (skip_whitespace (LastChar s) (stdin s)) as [c inp].
  cbn [fst snd] in Hws, Hwl.
  destruct (isalpha c) eqn:Ha.
  { pose proof (read_identifier_pending inp
                  (String (char_of_int c) EmptyString)) as Hr.
    destruct (read_identifier _ inp) as [[id c'] inp']; cbn [fst snd] in Hr.
    assert (Hlt : (pending_chars c' inp' < pending s)%nat).
    { unfold pending_chars in Hws at 1. rewrite (isalpha_not_EOF c Ha) in Hws.
      cbv iota in Hws. lia. }
    destruct (String.eqb id "def"); [|destruct (String.eqb id "extern")];
      cbn [fst snd]; unfold pending at 1 3;
      cbn [LastChar stdin set_input set_IdentifierStr]; split; lia. }
  destruct (isdigit c || (c =? 46)) eqn:Hd.
  { pose proof (read_number_pending inp
                  (String (char_of_int c) EmptyString)) as Hr.
    destruct (read_number _ inp) as [[num c'] inp']; cbn [fst snd] in *.
    unfold pending at 1 3; cbn [LastChar stdin set_input set_NumVal].
    unfold pending_chars in Hws at 1. rewrite (isnumeral_not_EOF c Hd) in Hws.
    cbv iota in Hws. split; lia. }
  destruct (c =? 35) eqn:Hh.
  { apply Z.eqb_eq in Hh; subst c.
    pose proof (skip_comment_pending inp) as Hc.
    pose proof (skip_comment_length inp) as Hl.
    destruct (skip_comment inp) as [c' inp']; cbn [fst snd] in *.
    unfold pending_chars in Hws at 1.
    change (35 =? EOF) with false in Hws. cbv iota in Hws.
    destruct (c' =? EOF) eqn:E; cbn [negb fst snd].
    - unfold pending at 1 3; cbn [LastChar stdin set_input]. split; [lia|].
      intros H; now contradiction H.
    - apply Z.eqb_neq in E. specialize (Hl E).
      assert (Hlt : (String.length inp' < n)%nat) by lia.
      pose proof (IH _ Hlt (set_input c' inp' s) eq_refl) as [H1 _].
      unfold pending at 2 in H1; cbn [LastChar stdin set_input] in H1.
      split; lia. }
  destruct (c =? EOF) eqn:He; cbn [fst snd].
  { unfold pending at 1 3; cbn [LastChar stdin set_input]. split; [lia|].
    intros H; now contradiction H. }
  pose proof (getchar_pending inp) as Hg.
  destruct (getchar inp) as [c' inp']; cbn [fst snd] in *.
  unfold pending at 1 3; cbn [LastChar stdin set_input].
  unfold pending_chars in Hws at 1. rewrite He in Hws. cbv iota in Hws.
  split; lia.
Qed.

(** X1. A call of [gettok] never gives characters back, and unless it
    returns [tok_eof] it uses up at least one of the pending characters. *)
Theorem gettok_progress (s : state) :
  (pending (snd (gettok s)) <= pending s)%nat /\
  (fst (gettok s) <> tok_eof -> (pending (snd (gettok s)) < pending s)%nat).
Proof. exact (gettok_pending_aux _ s eq_refl). Qed.

Lemma gettok_progress_witness :
  (pending (snd (gettok (initial "ab + 1"))) < pending (initial "ab + 1"))%nat.
Proof.
  refine (proj2 (gettok_progress (initial "ab + 1")) _).
  vm_compute. discriminate.
Defined.

(* ===================================================================== *)
(** * Case analysis of a call of [gettok] *)
(* ===================================================================== *)

(** To prove [P s (gettok s)] for every [s] it is enough to look at the
    six ways a call returns; the call after a comment may be assumed to
    satisfy [P] already. *)
Lemma gettok_cases (P : state -> Z * state -> Prop) :
  (forall s c inp id c' inp',
      skip_whitespace (LastChar s) (stdin s) = (c, inp) ->
      isalpha c = true ->
      read_identifier (String (char_of_int c) EmptyString) inp
        = (id, c', inp') ->
      P s (identifier_token id,
           set_IdentifierStr id (set_input c' inp' s))) ->
  (forall s c inp num c' inp',
      skip_whitespace (LastChar s) (stdin s) = (c, inp) ->
      isalpha c = false -> isnumeral c = true ->
      read_number (String (char_of_int c) EmptyString) inp
        = (num, c', inp') ->
      P s (tok_number, set_NumVal (strtod num) (set_input c' inp' s))) ->
  (forall s inp inp',
      skip_whitespace (LastChar s) (stdin s) = (35, inp) ->
      skip_comment inp = (EOF, inp') ->
      P s (tok_eof, set_input EOF inp' s)) ->
  (forall s inp c' inp',
      skip_whitespace (LastChar s) (stdin s) = (35, inp) ->
      skip_comment inp = (c', inp') -> c' <> EOF ->
      P (set_input c' inp' s) (gettok (set_input c' inp' s)) ->
      P s (gettok (set_input c' inp' s))) ->
  (forall s inp,
      skip_whitespace (LastChar s) (stdin s) = (EOF, inp) ->
      P s (tok_eof, set_input EOF inp s)) ->
  (forall s c inp,
      skip_whitespace (LastChar s) (stdin s) = (c, inp) ->
      isalpha c = false -> isnumeral c = false -> c <> 35 -> c <> EOF ->
      P s (c, set_input (fst (getchar inp)) (snd (getchar inp)) s)) ->
  forall s, P s (gettok s).
Proof.
  intros Hid Hnum Hceof Hcrec Heof Hchar s.
  remember (String.length (stdin s)) as n eqn:Hn. revert s Hn.
  induction n as [n IH] using lt_wf_ind. intros s Hn.
  rewrite gettok_unfold. unfold gettok_body.
  pose proof (skip_whitespace_length (stdin s) (LastChar s)) as Hwl.
  destruct (skip_whitespace (LastChar s) (stdin s)) as [c inp] eqn:Hsk.
  cbn [snd] in Hwl.
  destruct (isalpha c) eqn:Ha.
  { destruct (read_identifier _ inp) as [[id c'] inp'] eqn:Hr.
    specialize (Hid s c inp id c' inp' Hsk Ha Hr).
    unfold identifier_token in Hid.
    destruct (String.eqb id "def"); [exact Hid|].
    destruct (String.eqb id "extern"); exact Hid. }
  fold (isnumeral c). destruct (isnumeral c) eqn:Hd.
  { destruct (read_number _ inp) as [[num c'] inp'] eqn:Hr.
    exact (Hnum s c inp num c' inp' Hsk Ha Hd Hr). }
  destruct (c =? 35) eqn:Hh.
  { apply Z.eqb_eq in Hh; subst c.
    pose proof (skip_comment_length inp) as Hl.
    destruct (skip_comment inp) as [c' inp'] eqn:Hc; cbn [fst snd] in Hl.
    destruct (c' =? EOF) eqn:E; cbn [negb].
    - apply Z.eqb_eq in E; subst c'. exact (Hceof s inp inp' Hsk Hc).
    - apply Z.eqb_neq in E. apply (Hcrec s inp c' inp' Hsk Hc E).
      apply (IH (String.length inp')); [specialize (Hl E); lia|reflexivity]. }
  destruct (c =? EOF) eqn:He.
  { apply Z.eqb_eq in He; subst c. exact (Heof s inp Hsk). }
  apply Z.eqb_neq in Hh, He.
  specialize (Hchar s c inp Hsk Ha Hd Hh He).
  now destruct (getchar inp).
Qed.

Lemma state_eta_input (s : state) : set_input (LastChar s) (stdin s) s = s.
Proof. now destruct s. Qed.

(** X2. End of input is final: once [gettok] has returned [tok_eof] the
    buffered character is [EOF], and every later call returns [tok_eof]
    again and changes nothing. *)
Theorem gettok_eof_absorbing (s : state) :
  fst (gettok s) = tok_eof ->
  LastChar (snd (gettok s)) = EOF /\
  gettok (snd (gettok s)) = (tok_eof, snd (gettok s)).
Proof.
  assert (H : fst (gettok s) = tok_eof -> LastChar (snd (gettok s)) = EOF).
  { pattern s, (gettok s). apply gettok_cases; clear s; cbn [fst snd].
    - intros s c inp id c' inp' _ _ _. unfold identifier_token.
      destruct (String.eqb id "def"); [discriminate|].
      destruct (String.eqb id "extern"); discriminate.
    - discriminate.
    - reflexivity.
    - intros s inp c' inp' _ _ _ IH. exact IH.
    - reflexivity.
    - intros s c inp _ _ _ _ He Hc. now contradiction He. }
  intros Ht. specialize (H Ht). split; [exact H|].
  generalize dependent (snd (gettok s)). intros s' H.
  rewrite <- (state_eta_input s'), H. apply gettok_eof.
Qed.

Lemma gettok_eof_absorbing_witness :
  fst (gettok (initial "  # end")) = tok_eof /\
  LastChar (snd (gettok (initial "  # end"))) = EOF /\
  gettok (snd (gettok (initial "  # end")))
    = (tok_eof, snd (gettok (initial "  # end"))).
Proof.
  split; [reflexivity|].
  apply (gettok_eof_absorbing (initial "  # end")). reflexivity.
Defined.

Lemma int_of_char_value (a : ascii) : getchar_value (int_of_char a).
Proof. pose proof (int_of_char_range a). unfold getchar_value. lia. Qed.

Lemma EOF_value : getchar_value EOF.
Proof. unfold getchar_value, EOF. lia. Qed.

Lemma getchar_value_fst (inp : string) : getchar_value (fst (getchar inp)).
Proof. destruct inp; [apply EOF_value|apply int_of_char_value]. Qed.

Lemma skip_whitespace_value : forall inp c,
  getchar_value c -> getchar_value (fst (skip_whitespace c inp)).
Proof.
  induction inp as [|a r IH]; intros c Hc; cbn [skip_whitespace];
    destruct (isspace c) eqn:E; cbn [fst]; try exact Hc.
  - apply EOF_value.
  - apply IH, int_of_char_value.
Qed.

Lemma skip_whitespace_not_space : forall inp c,
  isspace (fst (skip_whitespace c inp)) = false.
Proof.
  induction inp as [|a r IH]; intros c; cbn [skip_whitespace];
    destruct (isspace c) eqn:E; cbn [fst]; try exact E.
  - reflexivity.
  - apply IH.
Qed.

Lemma read_identifier_value : forall inp id,
  getchar_value (snd (fst (read_identifier id inp))).
Proof.
  induction inp as [|a r IH]; intros id; cbn [read_identifier].
  - apply EOF_value.
  - destruct (isalnum (int_of_char a)); [apply IH|apply int_of_char_value].
Qed.

Lemma read_number_value : forall inp num,
  getchar_value (snd (fst (read_number num inp))).
Proof.
  induction inp as [|a r IH]; intros num; cbn [read_number].
  - apply EOF_value.
  - destruct (isdigit (int_of_char a) || (int_of_char a =? 46));
      [apply IH|apply int_of_char_value].
Qed.

(** X3. Whatever the state, [gettok] leaves in [LastChar] a value of
    [getchar] (a byte or [EOF]).  When [LastChar] held such a value, the
    token returned is one of the five named tokens or a byte that is no
    whitespace, no letter, no digit, no dot and no [#]: such characters
    never come out as single-character tokens. *)
Theorem gettok_token_kinds (s : state) :
  getchar_value (LastChar (snd (gettok s))) /\
  (getchar_value (LastChar s) ->
   named_token (fst (gettok s)) \/ character_token (fst (gettok s))).
Proof.
  pattern s, (gettok s). apply gettok_cases; clear s; cbn [fst snd].
  - intros s c inp id c' inp' _ _ Hr. split.
    + cbn [LastChar set_IdentifierStr set_input].
      pose proof (read_identifier_value inp
                    (String (char_of_int c) EmptyString)) as H.
      now rewrite Hr in H.
    + intros _. left. unfold identifier_token, named_token.
      destruct (String.eqb id "def"); [tauto|].
      destruct (String.eqb id "extern"); tauto.
  - intros s c inp num c' inp' _ _ _ Hr. split.
    + cbn [LastChar set_NumVal set_input].
      pose proof (read_number_value inp
                    (String (char_of_int c) EmptyString)) as H.
      now rewrite Hr in H.
    + intros _. left. unfold named_token. tauto.
  - intros s inp inp' _ _. split; [apply EOF_value|].
    intros _. left. unfold named_token. tauto.
  - intros s inp c' inp' _ Hc _ [IH1 IH2]. split; [exact IH1|].
    intros _. apply IH2. cbn [LastChar set_input].
    pose proof (skip_comment_stop inp) as Hs. rewrite Hc in Hs.
    cbn [fst] in Hs. unfold getchar_value, EOF in *. lia.
  - intros s inp _. split; [apply EOF_value|].
    intros _. left. unfold named_token. tauto.
  - intros s c inp Hsk Ha Hd Hh He. split.
    + cbn [LastChar set_input]. apply getchar_value_fst.
    + intros Hv. right.
      pose proof (skip_whitespace_value (stdin s) (LastChar s) Hv) as Hcv.
      pose proof (skip_whitespace_not_space (stdin s) (LastChar s)) as Hsp.
      rewrite Hsk in Hcv, Hsp; cbn [fst] in Hcv, Hsp.
      unfold isnumeral in Hd. apply orb_false_elim in Hd as [Hd1 Hd2].
      apply Z.eqb_neq in Hd2.
      unfold character_token, getchar_value, EOF in *. repeat split; try lia;
        assumption.
Qed.

Lemma gettok_token_kinds_witness :
  getchar_value (LastChar (initial "@x")) /\
  (named_token (fst (gettok (initial "@x"))) \/
   character_token (fst (gettok (initial "@x")))).
Proof.
  assert (H : getchar_value (LastChar (initial "@x")))
    by (unfold getchar_value; cbn; lia).
  split; [exact H|].
  exact (proj2 (gettok_token_kinds (initial "@x")) H).
Defined.

(* ===================================================================== *)
(** * Identifiers and numbers are the longest runs *)
(* ===================================================================== *)

Lemma append_cons (b : ascii) (x y : string) :
  (String b x ++ y)%string = String b (x ++ y)%string.
Proof. reflexivity. Qed.

Lemma append_snoc (x : string) (a : ascii) (y : string) :
  ((x ++ String a EmptyString) ++ y)%string = (x ++ String a y)%string.
Proof.
  induction x as [|b x IH]; [reflexivity|]. now rewrite !append_cons, IH.
Qed.

Lemma append_empty (x : string) : (x ++ EmptyString)%string = x.
Proof.
  induction x as [|b x IH]; [reflexivity|]. now rewrite append_cons, IH.
Qed.

Lemma read_identifier_run : forall body rest id,
  all_chars isalnum body = true -> stops isalnum rest ->
  read_identifier id (body ++ rest) =
  ((id ++ body)%string, fst (getchar rest), snd (getchar rest)).
Proof.
  unfold stops. induction body as [|b body IH]; intros rest id Hb Hr.
  - change (EmptyString ++ rest)%string with rest. rewrite append_empty.
    destruct rest as [|a r]; [reflexivity|].
    cbn [read_identifier getchar fst snd] in *. now rewrite Hr.
  - cbn [all_chars] in Hb. apply andb_prop in Hb as [Hb1 Hb2].
    rewrite append_cons. cbn [read_identifier].
    rewrite Hb1, (IH rest _ Hb2 Hr). now rewrite append_snoc.
Qed.

Lemma read_number_run : forall body rest num,
  all_chars isnumeral body = true -> stops isnumeral rest ->
  read_number num (body ++ rest) =
  ((num ++ body)%string, fst (getchar rest), snd (getchar rest)).
Proof.
  unfold stops, isnumeral.
  induction body as [|b body IH]; intros rest num Hb Hr.
  - change (EmptyString ++ rest)%string with rest. rewrite append_empty.
    destruct rest as [|a r]; [reflexivity|].
    cbn [read_number getchar fst snd] in *. now rewrite Hr.
  - cbn [all_chars] in Hb. apply andb_prop in Hb as [Hb1 Hb2].
    rewrite append_cons. cbn [read_number].
    rewrite Hb1, (IH rest _ Hb2 Hr). now rewrite append_snoc.
Qed.

Lemma isalpha_not_space (c : Z) : isalpha c = true -> isspace c = false.
Proof. unfold isalpha, isupper, islower, isspace, between. lia. Qed.

Lemma isnumeral_not_space (c : Z) : isnumeral c = true -> isspace c = false.
Proof. unfold isnumeral, isdigit, isspace, between. lia. Qed.

Lemma isnumeral_not_alpha (c : Z) : isnumeral c = true -> isalpha c = false.
Proof. unfold isnumeral, isdigit, isalpha, isupper, islower, between. lia. Qed.

(** X4. An identifier is a letter followed by the longest run of letters
    and digits: with a letter buffered and the unread input made of
    letters and digits [body] followed by [rest] that does not start with
    one, [gettok] puts the letter and [body] in [IdentifierStr], buffers
    the first character of [rest], and returns [tok_def] exactly when the
    text is [def], [tok_extern] exactly when it is [extern], and
    [tok_identifier] otherwise. *)
Theorem gettok_identifier (s : state) (body rest : string) :
  isalpha (LastChar s) = true ->
  all_chars isalnum body = true -> stops isalnum rest ->
  stdin s = (body ++ rest)%string ->
  let id := String (char_of_int (LastChar s)) body in
  gettok s =
    (identifier_token id,
     set_IdentifierStr id
       (set_input (fst (getchar rest)) (snd (getchar rest)) s))
  /\ (identifier_token id = tok_def <-> id = "def")
  /\ (identifier_token id = tok_extern <-> id = "extern")
  /\ (identifier_token id = tok_identifier <->
      id <> "def" /\ id <> "extern").
Proof.
  intros Ha Hb Hr Hin id. split.
  - rewrite gettok_unfold. unfold gettok_body.
    rewrite (skip_whitespace_stop _ _ (isalpha_not_space _ Ha)), Ha, Hin.
    rewrite (read_identifier_run body rest _ Hb Hr).
    change (String (char_of_int (LastChar s)) EmptyString ++ body)%string
      with id. unfold identifier_token.
    destruct (String.eqb id "def"); [reflexivity|].
    destruct (String.eqb id "extern"); reflexivity.
  - unfold identifier_token.
    destruct (String.eqb_spec id "def") as [E1|E1].
    { rewrite E1. cbn. repeat split; intros; try discriminate; try tauto. }
    destruct (String.eqb_spec id "extern") as [E2|E2].
    { rewrite E2. repeat split; intros; try discriminate; try tauto. }
    repeat split; intros; try discriminate; try tauto.
Qed.

Lemma gettok_identifier_witness :
  gettok (set_input 101 "xtern2(" (initial "")) =
    (tok_identifier,
     set_IdentifierStr "extern2" (set_input 40 "" (initial ""))).
Proof.
  refine (proj1 (gettok_identifier (set_input 101 "xtern2(" (initial ""))
                   "xtern2" "(" _ _ _ _)); reflexivity.
Defined.

(** X5. A number is the longest run of digits and dots, however many dots
    there are: with a digit or a dot buffered and the unread input made of
    digits and dots [body] followed by [rest] that does not start with
    one, [gettok] returns [tok_number], sets [NumVal] to [strtod] of the
    whole run and buffers the first character of [rest]. *)
Theorem gettok_number (s : state) (body rest : string) :
  isnumeral (LastChar s) = true ->
  all_chars isnumeral body = true -> stops isnumeral rest ->
  stdin s = (body ++ rest)%string ->
  gettok s =
    (tok_number,
     set_NumVal (strtod (String (char_of_int (LastChar s)) body))
       (set_input (fst (getchar rest)) (snd (getchar rest)) s)).
Proof.
  intros Hn Hb Hr Hin.
  rewrite gettok_unfold. unfold gettok_body.
  rewrite (skip_whitespace_stop _ _ (isnumeral_not_space _ Hn)).
  rewrite (isnumeral_not_alpha _ Hn). fold (isnumeral (LastChar s)).
  now rewrite Hn, Hin, (read_number_run body rest _ Hb Hr).
Qed.

Lemma gettok_number_witness :
  gettok (set_input 49 ".5.3+" (initial "")) =
    (tok_number,
     set_NumVal 1.5%float (set_input 43 "" (initial ""))).
Proof.
  refine (gettok_number (set_input 49 ".5.3+" (initial ""))
            ".5.3" "+" _ _ _ _); reflexivity.
Defined.

(* ===================================================================== *)
(** * The token sequence is finite *)
(* ===================================================================== *)

Lemma ends_at_eof_cons (x : Z * string * float)
  (l : list (Z * string * float)) :
  ends_at_eof l = true -> ends_at_eof (x :: l) = true.
Proof.
  unfold ends_at_eof. destruct l as [|y l]; [discriminate|].
  rewrite (last_cons x (y :: l)).
  destruct (last (y :: l)); [tauto|discriminate].
Qed.

(** X6. Lexing reaches end of input: more calls of [gettok] than there are
    pending characters always end with [tok_eof], and the tokens before it
    are at most as many as the pending characters. *)
Theorem lex_reaches_eof : forall (n : nat) (s : state),
  (pending s < n)%nat ->
  ends_at_eof (lex n s) = true /\ (length (lex n s) <= pending s + 1)%nat.
Proof.
  induction n as [|n IH]; intros s Hn; [lia|].
  cbn [lex]. pose proof (gettok_pending_aux _ s eq_refl) as [Hle Hlt].
  destruct (gettok s) as [t s']; cbn [fst snd] in *.
  destruct (t =? tok_eof) eqn:E.
  - split; [|cbn; lia]. unfold ends_at_eof. cbn. exact E.
  - apply Z.eqb_neq in E. specialize (Hlt E).
    destruct (IH s') as [H1 H2]; [lia|].
    split; [now apply ends_at_eof_cons|cbn [length]; lia].
Qed.

Lemma lex_reaches_eof_witness :
  (pending (initial "a+1") < 5)%nat /\
  ends_at_eof (lex 5 (initial "a+1")) = true /\
  (length (lex 5 (initial "a+1")) <= pending (initial "a+1") + 1)%nat.
Proof.
  assert (H : (pending (initial "a+1") < 5)%nat) by (cbn; lia).
  split; [exact H|]. exact (lex_reaches_eof 5 (initial "a+1") H).
Defined.

(* ===================================================================== *)
(** * What every parsing routine preserves *)
(* ===================================================================== *)

Section Preserved.

Variable R : state -> state -> Prop.
Hypothesis R_refl : forall s, R s s.
Hypothesis R_trans : forall a b c, R a b -> R b c -> R a c.
Hypothesis R_next : forall s, R s (snd (getNextToken s)).
Hypothesis R_prec : forall s, R s (snd (GetTokPrecedence s)).
Hypothesis R_log : forall msg s, R s (log msg s).

Lemma returns_in_bind {A B : Type} (s : state) (m : outcome A)
  (k : A -> state -> outcome B) :
  returns_in R s m ->
  (forall r s1, R s s1 -> returns_in R s (k r s1)) ->
  returns_in R s (bind m k).
Proof.
  intros Hm Hk. destruct m as [r s1|]; cbn [bind returns_in] in *;
    [now apply Hk|exact I].
Qed.

Ltac r_chain :=
  repeat first
    [ assumption
    | apply R_refl
    | eapply R_trans; [|apply R_next]
    | eapply R_trans; [|apply R_prec]
    | eapply R_trans; [|apply R_log] ].

Ltac r_step :=
  match goal with
  | |- returns_in _ _ (bind _ _) => apply returns_in_bind; [|intros ? ? ?]
  | |- returns_in _ _ (if ?b then _ else _) => destruct b
  | |- returns_in _ _ (match ?x with _ => _ end) => destruct x
  | |- returns_in _ _ (let _ := _ in _) => cbv zeta
  | |- returns_in _ _ (Done _ _) => cbn [returns_in]; r_chain
  | |- returns_in _ _ (LogError _ _) =>
      unfold LogError; cbn [returns_in]; r_chain
  end.

Lemma parser_preserves_all : forall n, parser_preserves R n.
Proof.
  induction n as [|n (IHe & IHp & IHpar & IHid & IHargs & IHrhs)].
  - repeat split; intros; exact I.
  - repeat split; intros.
    + rewrite ParseExpression_eq. repeat r_step; [now apply IHp|].
      now apply IHrhs.
    + rewrite ParsePrimary_eq. repeat r_step.
      * now apply IHid.
      * unfold ParseNumberExpr.
        pose proof (R_next s) as Hn. destruct (getNextToken s) as [t s1].
        cbn [snd returns_in] in *. eapply R_trans; eassumption.
      * now apply IHpar.
    + rewrite ParseParenExpr_eq. repeat r_step. apply IHe. r_chain.
    + rewrite ParseIdentifierExpr_eq. repeat r_step. apply IHargs. r_chain.
    + rewrite ParseCallArgs_eq. repeat r_step; [now apply IHe|].
      apply IHargs. r_chain.
    + rewrite ParseBinOpRHS_eq. repeat r_step.
      * apply IHp. r_chain.
      * apply IHrhs. r_chain.
      * now apply IHrhs.
Qed.

Lemma ParseExpression_preserves (n : nat) (s : state) :
  returns_in R s (ParseExpression n s).
Proof. apply (parser_preserves_all n), R_refl. Qed.

Lemma ParsePrimary_preserves (n : nat) (s : state) :
  returns_in R s (ParsePrimary n s).
Proof. apply (parser_preserves_all n), R_refl. Qed.

Lemma ParseCallArgs_preserves (n : nat) (a : list ExprAST) (s : state) :
  returns_in R s (ParseCallArgs n a s).
Proof. apply (parser_preserves_all n), R_refl. Qed.

Lemma ParseBinOpRHS_preserves (n : nat) (p : Z) (l : ExprAST) (s : state) :
  returns_in R s (ParseBinOpRHS n p l s).
Proof. apply (parser_preserves_all n), R_refl. Qed.

Lemma ParsePrototypeArgs_preserves : forall n a s0 s,
  R s0 s -> returns_in R s0 (ParsePrototypeArgs n a s).
Proof.
  induction n as [|n IH]; intros a s0 s H; [exact I|].
  rewrite ParsePrototypeArgs_eq. repeat r_step. apply IH. r_chain.
Qed.

Lemma ParsePrototype_preserves (n : nat) (s0 s : state) :
  R s0 s -> returns_in R s0 (ParsePrototype n s).
Proof.
  intros H. unfold ParsePrototype. destruct (negb _); [r_step|].
  pose proof (R_trans _ _ _ H (R_next s)) as H1.
  destruct (getNextToken s) as [t s1]. cbn [snd] in H1.
  destruct (negb _); [r_step|].
  r_step; [now apply ParsePrototypeArgs_preserves|].
  destruct (negb _); [r_step|].
  match goal with
  | H2 : R s0 ?s2 |- context [getNextToken ?s2] =>
      pose proof (R_trans _ _ _ H2 (R_next s2)) as H3;
      destruct (getNextToken s2) as [t' s3]; cbn [snd] in H3
  end.
  r_step.
Qed.

Lemma ParseDefinition_preserves (n : nat) (s : state) :
  returns_in R s (ParseDefinition n s).
Proof.
  unfold ParseDefinition.
  pose proof (R_next s) as Hn. destruct (getNextToken s) as [t s1].
  cbn [snd] in Hn. r_step; [now apply ParsePrototype_preserves|].
  r_step; [|r_step].
  r_step; [now apply (parser_preserves_all n)|]. repeat r_step.
Qed.

Lemma ParseExtern_preserves (n : nat) (s : state) :
  returns_in R s (ParseExtern n s).
Proof.
  unfold ParseExtern.
  pose proof (R_next s) as Hn. destruct (getNextToken s) as [t s1].
  cbn [snd] in Hn. now apply ParsePrototype_preserves.
Qed.

Lemma ParseTopLevelExpr_preserves (n : nat) (s : state) :
  returns_in R s (ParseTopLevelExpr n s).
Proof.
  unfold ParseTopLevelExpr.
  r_step; [apply ParseExpression_preserves|]. repeat r_step.
Qed.

Lemma HandleDefinition_preserves (n : nat) (s : state) :
  returns_in R s (HandleDefinition n s).
Proof.
  unfold HandleDefinition.
  r_step; [apply ParseDefinition_preserves|]. repeat r_step.
Qed.

Lemma HandleExtern_preserves (n : nat) (s : state) :
  returns_in R s (HandleExtern n s).
Proof.
  unfold HandleExtern.
  r_step; [apply ParseExtern_preserves|]. repeat r_step.
Qed.

Lemma HandleTopLevelExpression_preserves (n : nat) (s : state) :
  returns_in R s (HandleTopLevelExpression n s).
Proof.
  unfold HandleTopLevelExpression.
  r_step; [apply ParseTopLevelExpr_preserves|]. repeat r_step.
Qed.

Lemma MainLoop_preserves : forall n s0 s,
  R s0 s -> returns_in R s0 (MainLoop n s).
Proof.
  induction n as [|n IH]; intros s0 s H; [exact I|]. cbn [MainLoop].
  destruct (CurTok s =? tok_eof); [r_step|].
  destruct (CurTok s =? semicolon); [apply IH; r_chain|].
  destruct (CurTok s =? tok_def).
  { pose proof (HandleDefinition_preserves n s) as Hh.
    destruct (HandleDefinition n s) as [u s1|]; cbn [bind returns_in] in *;
      [|exact I].
    apply IH. r_chain. eapply R_trans; eassumption. }
  destruct (CurTok s =? tok_extern).
  { pose proof (HandleExtern_preserves n s) as Hh.
    destruct (HandleExtern n s) as [u s1|]; cbn [bind returns_in] in *;
      [|exact I].
    apply IH. eapply R_trans; eassumption. }
  pose proof (HandleTopLevelExpression_preserves n s) as Hh.
  destruct (HandleTopLevelExpression n s) as [u s1|];
    cbn [bind returns_in] in *; [|exact I].
  apply IH. eapply R_trans; eassumption.
Qed.

End Preserved.

(* ===================================================================== *)
(** * Parsing only consumes input *)
(* ===================================================================== *)

Lemma getNextToken_CurTok (s : state) :
  CurTok (snd (getNextToken s)) = fst (gettok s).
Proof. unfold getNextToken. now destruct (gettok s). Qed.

Lemma getNextToken_pending (s : state) :
  pending (snd (getNextToken s)) = pending (snd (gettok s)).
Proof. unfold getNextToken. now destruct (gettok s). Qed.

(** Reading a token leaves at most the characters that were pending. *)
Lemma getNextToken_tokens_left (s : state) :
  (tokens_left (snd (getNextToken s)) <= pending s)%nat.
Proof.
  unfold tokens_left. rewrite getNextToken_CurTok, getNextToken_pending.
  pose proof (gettok_pending_aux _ s eq_refl) as [Hle Hlt].
  destruct (fst (gettok s) =? tok_eof) eqn:E; [lia|].
  apply Z.eqb_neq in E. specialize (Hlt E). lia.
Qed.

Lemma getNextToken_consumes (s : state) :
  consumes s (snd (getNextToken s)).
Proof.
  unfold consumes. pose proof (getNextToken_tokens_left s).
  unfold tokens_left at 2. lia.
Qed.

(** Moving off a token other than [tok_eof] uses it up. *)
Lemma getNextToken_uses_token (s : state) :
  CurTok s <> tok_eof ->
  (tokens_left (snd (getNextToken s)) < tokens_left s)%nat.
Proof.
  intros H. pose proof (getNextToken_tokens_left s).
  unfold tokens_left at 2. apply Z.eqb_neq in H. rewrite H. lia.
Qed.

Lemma tokens_left_view (s s' : state) :
  view_of s' = view_of s -> tokens_left s' = tokens_left s.
Proof.
  unfold view_of. intros [= H1 _ H3 H4].
  unfold tokens_left, pending. now rewrite H1, H3, H4.
Qed.

Lemma GetTokPrecedence_consumes (s : state) :
  consumes s (snd (GetTokPrecedence s)).
Proof.
  unfold consumes.
  now rewrite (tokens_left_view _ _ (GetTokPrecedence_view s)).
Qed.

Lemma consumes_refl (s : state) : consumes s s.
Proof. unfold consumes. lia. Qed.

Lemma consumes_trans (a b c : state) :
  consumes a b -> consumes b c -> consumes a c.
Proof. unfold consumes. lia. Qed.

Lemma tokens_left_log (msg : string) (s : state) :
  tokens_left (log msg s) = tokens_left s.
Proof. reflexivity. Qed.

Lemma log_consumes (msg : string) (s : state) : consumes s (log msg s).
Proof. unfold consumes. reflexivity. Qed.

Lemma ParseExpression_consumes (n : nat) (s : state) :
  returns_in consumes s (ParseExpression n s).
Proof.
  exact (ParseExpression_preserves consumes consumes_refl consumes_trans
           getNextToken_consumes GetTokPrecedence_consumes log_consumes n s).
Qed.

Lemma ParseCallArgs_consumes (n : nat) (a : list ExprAST) (s : state) :
  returns_in consumes s (ParseCallArgs n a s).
Proof.
  exact (ParseCallArgs_preserves consumes consumes_refl consumes_trans
           getNextToken_consumes GetTokPrecedence_consumes log_consumes
           n a s).
Qed.

Lemma ParseBinOpRHS_consumes (n : nat) (p : Z) (l : ExprAST) (s : state) :
  returns_in consumes s (ParseBinOpRHS n p l s).
Proof.
  exact (ParseBinOpRHS_preserves consumes consumes_refl consumes_trans
           getNextToken_consumes GetTokPrecedence_consumes log_consumes
           n p l s).
Qed.

Lemma ParsePrimary_consumes (n : nat) (s : state) :
  returns_in consumes s (ParsePrimary n s).
Proof.
  exact (ParsePrimary_preserves consumes consumes_refl consumes_trans
           getNextToken_consumes GetTokPrecedence_consumes log_consumes n s).
Qed.

Lemma Done_consumes {A : Type} (o : outcome A) (s : state) (r : A)
  (s' : state) :
  returns_in consumes s o -> o = Done r s' ->
  (tokens_left s' <= tokens_left s)%nat.
Proof. intros H ->. exact H. Qed.

Lemma ParsePrimary_uses_token (n : nat) (s : state) (r : option ExprAST)
  (s' : state) :
  ParsePrimary n s = Done r s' ->
  (tokens_left s' < tokens_left s)%nat \/
  (r = None /\ tokens_left s' = tokens_left s /\ CurTok s' = CurTok s).
Proof.
  destruct n as [|n]; [discriminate|]. rewrite ParsePrimary_eq.
  destruct (CurTok s =? tok_identifier) eqn:E1.
  { apply Z.eqb_eq in E1. intros H. left.
    destruct n as [|n]; [discriminate|].
    rewrite ParseIdentifierExpr_eq in H; cbv zeta in H.
    assert (H1 : (tokens_left (snd (getNextToken s)) < tokens_left s)%nat).
    { apply getNextToken_uses_token. rewrite E1. discriminate. }
    destruct (negb _); [injection H as _ <-; exact H1|].
    pose proof (getNextToken_consumes (snd (getNextToken s))) as H2.
    set (s2 := snd (getNextToken (snd (getNextToken s)))) in *.
    assert (H3 : forall a s3,
               (if negb (CurTok s2 =? rparen) then ParseCallArgs n [] s2
                else Done (Some []) s2) = Done a s3 ->
               (tokens_left s3 <= tokens_left s2)%nat).
    { intros a s3. destruct (negb _).
      - apply Done_consumes, ParseCallArgs_consumes.
      - intros [= _ <-]. lia. }
    destruct (if negb _ then _ else _) as [a s3|]; [|discriminate].
    specialize (H3 a s3 eq_refl). cbn [bind] in H.
    pose proof (getNextToken_consumes s3) as H4. unfold consumes in *.
    destruct a; injection H as _ <-; lia. }
  destruct (CurTok s =? tok_number) eqn:E2.
  { apply Z.eqb_eq in E2. unfold ParseNumberExpr.
    pose proof (getNextToken_uses_token s) as H1.
    destruct (getNextToken s) as [t s1]. intros [= _ <-]. left.
    apply H1. rewrite E2. discriminate. }
  destruct (CurTok s =? lparen) eqn:E3.
  { apply Z.eqb_eq in E3. intros H. left.
    destruct n as [|n]; [discriminate|].
    rewrite ParseParenExpr_eq in H.
    assert (H1 : (tokens_left (snd (getNextToken s)) < tokens_left s)%nat).
    { apply getNextToken_uses_token. rewrite E3. discriminate. }
    pose proof (ParseExpression_consumes n (snd (getNextToken s))) as H2.
    destruct (ParseExpression n _) as [[V|] s2|]; cbn [bind] in H;
      [| |discriminate]; cbn [returns_in] in H2; unfold consumes in H2.
    - destruct (negb _).
      + unfold LogError in H. injection H as _ <-.
        rewrite tokens_left_log. lia.
      + pose proof (getNextToken_consumes s2) as H4. unfold consumes in H4.
        injection H as _ <-. lia.
    - injection H as _ <-. lia. }
  intros [= <- <-]. right. repeat split.
Qed.

Lemma ParseExpression_decreases (n : nat) (s : state)
  (r : option ExprAST) (s' : state) :
  ParseExpression n s = Done r s' ->
  (tokens_left s' <= tokens_left s)%nat /\
  (r <> None -> (tokens_left s' < tokens_left s)%nat) /\
  (r = None ->
   (tokens_left s' < tokens_left s)%nat \/ CurTok s' = CurTok s).
Proof.
  intros H.
  assert (Hle : (tokens_left s' <= tokens_left s)%nat).
  { apply (Done_consumes (ParseExpression n s) s r s'); [|exact H].
    apply ParseExpression_consumes. }
  split; [exact Hle|].
  destruct n as [|n]; [discriminate|]. rewrite ParseExpression_eq in H.
  destruct (ParsePrimary n s) as [LHS s1|] eqn:HP; [|discriminate].
  cbn [bind] in H. apply ParsePrimary_uses_token in HP.
  destruct LHS as [LHS|].
  - destruct HP as [HP|[HP _]]; [|discriminate].
    pose proof (ParseBinOpRHS_consumes n 0 LHS s1) as H2.
    rewrite H in H2. cbn [returns_in] in H2. unfold consumes in H2.
    split; intros _; [lia|left; lia].
  - injection H as <- <-. split; [intros Hc; now contradiction Hc|].
    intros _. destruct HP as [HP|(_ & _ & HP)]; [now left|now right].
Qed.

(** X7. Parsing an expression never gives input back.  When it succeeds
    it has used at least one token; when it fails it has either used one
    or left the lookahead token where it was. *)
Theorem ParseExpression_uses_token (n : nat) (s : state)
  (r : option ExprAST) (s' : state) :
  ParseExpression n s = Done r s' ->
  (tokens_left s' <= tokens_left s)%nat /\
  (r <> None -> (tokens_left s' < tokens_left s)%nat) /\
  (r = None ->
   (tokens_left s' < tokens_left s)%nat \/ CurTok s' = CurTok s).
Proof.
  intros H. destruct (ParseExpression_decreases n s r s' H) as (H1 & H2 & H3).
  repeat split; assumption.
Qed.

Lemma ParseExpression_uses_token_witness :
  (tokens_left (log "unknown token when expecting an expression"
                  (main_init "+1")) <= tokens_left (main_init "+1"))%nat.
Proof.
  refine (proj1 (ParseExpression_uses_token 3 (main_init "+1") None
                   (log "unknown token when expecting an expression"
                      (main_init "+1")) _)).
  vm_compute. reflexivity.
Defined.

(* ===================================================================== *)
(** * Parsing terminates *)
(* ===================================================================== *)

Lemma returns_bind {A B : Type} (m : outcome A)
  (k : A -> state -> outcome B) :
  returns m ->
  (forall r s1, m = Done r s1 -> returns (k r s1)) ->
  returns (bind m k).
Proof.
  intros Hm Hk. destruct m as [r s1|]; cbn [bind returns] in *;
    [now apply Hk|contradiction].
Qed.

Lemma returns_Done {A : Type} (o : outcome A) :
  returns o -> exists r s, o = Done r s.
Proof. destruct o as [r s|]; [now exists r, s|contradiction]. Qed.

(** A token with a precedence of its own is a character, not [tok_eof]. *)
Lemma GetTokPrecedence_operator (s : state) :
  0 <= fst (GetTokPrecedence s) -> CurTok s <> tok_eof.
Proof.
  unfold GetTokPrecedence.
  destruct (isascii (CurTok s)) eqn:E; cbn [negb fst]; [|lia].
  apply isascii_range in E. unfold tok_eof. lia.
Qed.

Lemma GetTokPrecedence_positive (s : state) :
  fst (GetTokPrecedence s) = -1 \/ 0 < fst (GetTokPrecedence s).
Proof.
  unfold GetTokPrecedence.
  destruct (negb (isascii (CurTok s))); [now left|].
  destruct (subscript _ _) as [p m]. destruct (p <=? 0) eqn:E; cbn [fst].
  - now left.
  - right. lia.
Qed.

Lemma GetTokPrecedence_tokens_left (s : state) :
  tokens_left (snd (GetTokPrecedence s)) = tokens_left s.
Proof. apply tokens_left_view, GetTokPrecedence_view. Qed.

Lemma parser_returns_all : forall n, parser_returns n.
Proof.
  induction n as [|n (IHe & IHp & IHpar & IHid & IHargs & IHrhs)].
  - repeat split; intros; try lia.
    + assert (H1 : CurTok s <> tok_eof) by (rewrite H; discriminate).
      unfold tokens_left in H0. apply Z.eqb_neq in H1.
      rewrite H1 in H0. lia.
    + assert (H1 : CurTok s <> tok_eof) by (rewrite H; discriminate).
      unfold tokens_left in H0. apply Z.eqb_neq in H1.
      rewrite H1 in H0. lia.
  - repeat split.
    + (* ParseExpression *)
      intros s H. rewrite ParseExpression_eq.
      apply returns_bind; [apply IHp; lia|]. intros [LHS|] s1 HP; [|exact I].
      pose proof (ParsePrimary_consumes n s) as Hc. rewrite HP in Hc.
      cbn [returns_in] in Hc. unfold consumes in Hc.
      apply IHrhs; lia.
    + (* ParsePrimary *)
      intros s H. rewrite ParsePrimary_eq.
      destruct (CurTok s =? tok_identifier) eqn:E1.
      { apply Z.eqb_eq in E1. apply IHid; [exact E1|lia]. }
      destruct (CurTok s =? tok_number); [unfold ParseNumberExpr;
        now destruct (getNextToken s)|].
      destruct (CurTok s =? lparen) eqn:E3; [|exact I].
      apply Z.eqb_eq in E3. apply IHpar; [exact E3|lia].
    + (* ParseParenExpr *)
      intros s Hp H. rewrite ParseParenExpr_eq.
      assert (H1 : (tokens_left (snd (getNextToken s)) < tokens_left s)%nat).
      { apply getNextToken_uses_token. rewrite Hp. discriminate. }
      apply returns_bind; [apply IHe; lia|]. intros [V|] s2 _; [|exact I].
      now destruct (negb _).
    + (* ParseIdentifierExpr *)
      intros s Hi H. rewrite ParseIdentifierExpr_eq; cbv zeta.
      assert (H1 : (tokens_left (snd (getNextToken s)) < tokens_left s)%nat).
      { apply getNextToken_uses_token. rewrite Hi. discriminate. }
      destruct (CurTok (snd (getNextToken s)) =? lparen) eqn:E;
        cbn [negb]; [|exact I].
      apply Z.eqb_eq in E.
      assert (H2 : (tokens_left (snd (getNextToken (snd (getNextToken s))))
                    < tokens_left (snd (getNextToken s)))%nat).
      { apply getNextToken_uses_token. rewrite E. discriminate. }
      apply returns_bind.
      * destruct (negb _); [apply IHargs; lia|exact I].
      * now intros [a|] s3 _.
    + (* ParseCallArgs *)
      intros a s H. rewrite ParseCallArgs_eq.
      apply returns_bind; [apply IHe; lia|]. intros [Arg|] s1 HE; [|exact I].
      pose proof (ParseExpression_consumes n s) as Hc. rewrite HE in Hc.
      cbn [returns_in] in Hc. unfold consumes in Hc.
      destruct (CurTok s1 =? rparen); [exact I|].
      destruct (CurTok s1 =? comma) eqn:E; cbn [negb]; [|exact I].
      apply Z.eqb_eq in E.
      assert (H2 : (tokens_left (snd (getNextToken s1))
                    < tokens_left s1)%nat).
      { apply getNextToken_uses_token. rewrite E. discriminate. }
      apply IHargs; lia.
    + (* ParseBinOpRHS *)
      intros p l s Hp H. rewrite ParseBinOpRHS_eq; cbv zeta.
      destruct (fst (GetTokPrecedence s) <? p) eqn:E; [exact I|].
      apply Z.ltb_ge in E.
      assert (Hop : CurTok s <> tok_eof)
        by (apply GetTokPrecedence_operator; lia).
      pose proof (GetTokPrecedence_tokens_left s) as Ht.
      pose proof (f_equal v_CurTok (GetTokPrecedence_view s)) as Hcur.
      cbn [v_CurTok view_of] in Hcur.
      set (s1 := snd (GetTokPrecedence s)) in *.
      assert (H2 : (tokens_left (snd (getNextToken s1))
                    < tokens_left s1)%nat).
      { apply getNextToken_uses_token. now rewrite Hcur. }
      apply returns_bind; [apply IHp; lia|]. intros [RHS|] s3 HP; [|exact I].
      pose proof (ParsePrimary_consumes n (snd (getNextToken s1))) as Hc.
      rewrite HP in Hc. cbn [returns_in] in Hc. unfold consumes in Hc.
      pose proof (GetTokPrecedence_tokens_left s3) as Ht3.
      apply returns_bind.
      * destruct (_ <? _); [apply IHrhs; lia|exact I].
      * intros [RHS'|] s5 HR; [|exact I].
        assert (H5 : (tokens_left s5 <= tokens_left s3)%nat).
        { destruct (_ <? _).
          - pose proof (ParseBinOpRHS_consumes n
                          (fst (GetTokPrecedence s) + 1) RHS
                          (snd (GetTokPrecedence s3))) as Hc5.
            rewrite HR in Hc5. cbn [returns_in] in Hc5.
            unfold consumes in Hc5. lia.
          - injection HR as _ <-. lia. }
        apply IHrhs; lia.
Qed.

(** X8. Parsing an expression terminates on every state: a budget of three
    units per token left, plus two, is always enough for
    [ParseExpression] to return. *)
Theorem ParseExpression_returns (n : nat) (s : state) :
  (3 * tokens_left s + 2 <= n)%nat ->
  exists r s', ParseExpression n s = Done r s'.
Proof.
  intros H. apply returns_Done, (parser_returns_all n), H.
Qed.

Lemma ParseExpression_returns_witness :
  (3 * tokens_left (main_init "f(1,g(2))*3") + 2 <= 50)%nat /\
  exists r s', ParseExpression 50 (main_init "f(1,g(2))*3") = Done r s'.
Proof.
  assert (H : (3 * tokens_left (main_init "f(1,g(2))*3") + 2 <= 50)%nat)
    by (vm_compute; lia).
  split; [exact H|].
  exact (ParseExpression_returns 50 (main_init "f(1,g(2))*3") H).
Defined.

Lemma getNextToken_fst (s : state) :
  fst (getNextToken s) = fst (gettok s).
Proof. unfold getNextToken. now destruct (gettok s). Qed.

Lemma pending_le_tokens_left (s : state) : (pending s <= tokens_left s)%nat.
Proof. unfold tokens_left. lia. Qed.

Lemma ParsePrototypeArgs_returns : forall n a s,
  (pending s < n)%nat -> returns (ParsePrototypeArgs n a s).
Proof.
  induction n as [|n IH]; intros a s H; [lia|].
  rewrite ParsePrototypeArgs_eq; cbv zeta.
  destruct (_ =? tok_identifier) eqn:E; [|exact I].
  apply Z.eqb_eq in E. rewrite getNextToken_fst in E.
  pose proof (gettok_pending_aux _ s eq_refl) as [_ Hlt].
  apply IH. rewrite getNextToken_pending.
  assert (fst (gettok s) <> tok_eof) by (rewrite E; discriminate).
  specialize (Hlt H0). lia.
Qed.

Lemma ParsePrototype_consumes (n : nat) (s : state) :
  returns_in consumes s (ParsePrototype n s).
Proof.
  apply ParsePrototype_preserves;
    first [ exact consumes_trans | exact getNextToken_consumes
          | exact log_consumes | apply consumes_refl ].
Qed.

Lemma ParsePrototype_returns (n : nat) (s : state) :
  (tokens_left s <= n)%nat -> returns (ParsePrototype n s).
Proof.
  intros H. unfold ParsePrototype.
  destruct (CurTok s =? tok_identifier) eqn:E; cbn [negb]; [|exact I].
  apply Z.eqb_eq in E.
  assert (H1 : (tokens_left (snd (getNextToken s)) < tokens_left s)%nat).
  { apply getNextToken_uses_token. rewrite E. discriminate. }
  destruct (getNextToken s) as [t s1]; cbn [snd] in H1.
  destruct (negb _); [exact I|].
  apply returns_bind.
  - apply ParsePrototypeArgs_returns.
    pose proof (pending_le_tokens_left s1). lia.
  - intros a s2 _. destruct (negb _); [exact I|].
    now destruct (getNextToken s2).
Qed.

Lemma ParseDefinition_returns (n : nat) (s : state) :
  (3 * tokens_left s + 2 <= n)%nat -> returns (ParseDefinition n s).
Proof.
  intros H. unfold ParseDefinition.
  pose proof (getNextToken_consumes s) as H1. unfold consumes in H1.
  destruct (getNextToken s) as [t s1]; cbn [snd] in H1.
  apply returns_bind; [apply ParsePrototype_returns; lia|].
  intros [P|] s2 HP; [|exact I].
  pose proof (ParsePrototype_consumes n s1) as Hc. rewrite HP in Hc.
  cbn [returns_in] in Hc. unfold consumes in Hc.
  apply returns_bind; [apply (parser_returns_all n); lia|].
  now intros [E|] s3 _.
Qed.

Lemma ParseExtern_returns (n : nat) (s : state) :
  (3 * tokens_left s + 2 <= n)%nat -> returns (ParseExtern n s).
Proof.
  intros H. unfold ParseExtern.
  pose proof (getNextToken_consumes s) as H1. unfold consumes in H1.
  destruct (getNextToken s) as [t s1]; cbn [snd] in H1.
  apply ParsePrototype_returns; lia.
Qed.

Lemma ParseTopLevelExpr_returns (n : nat) (s : state) :
  (3 * tokens_left s + 2 <= n)%nat -> returns (ParseTopLevelExpr n s).
Proof.
  intros H. unfold ParseTopLevelExpr.
  apply returns_bind; [apply (parser_returns_all n); lia|].
  now intros [E|] s3 _.
Qed.

(** X9. The three entry points terminate on every state: a budget of three
    units per token left, plus two, is always enough for
    [ParseDefinition], [ParseExtern] and [ParseTopLevelExpr] to return. *)
Theorem entry_points_return (n : nat) (s : state) :
  (3 * tokens_left s + 2 <= n)%nat ->
  (exists r s', ParseDefinition n s = Done r s') /\
  (exists r s', ParseExtern n s = Done r s') /\
  (exists r s', ParseTopLevelExpr n s = Done r s').
Proof.
  intros H. repeat split; apply returns_Done.
  - now apply ParseDefinition_returns.
  - now apply ParseExtern_returns.
  - now apply ParseTopLevelExpr_returns.
Qed.

Lemma entry_points_return_witness :
  (3 * tokens_left (main_init "def f(a b c") + 2 <= 40)%nat /\
  exists r s', ParseDefinition 40 (main_init "def f(a b c") = Done r s'.
Proof.
  assert (H : (3 * tokens_left (main_init "def f(a b c") + 2 <= 40)%nat)
    by (vm_compute; lia).
  split; [exact H|].
  exact (proj1 (entry_points_return 40 (main_init "def f(a b c") H)).
Defined.

(* ===================================================================== *)
(** * The driver *)
(* ===================================================================== *)

Lemma ParseDefinition_uses_token (n : nat) (s : state)
  (r : option FunctionAST) (s' : state) :
  CurTok s <> tok_eof -> ParseDefinition n s = Done r s' ->
  (tokens_left s' < tokens_left s)%nat.
Proof.
  intros Hc H.
  pose proof (getNextToken_uses_token s Hc) as H1.
  unfold ParseDefinition in H.
  destruct (getNextToken s) as [t s1]; cbn [snd] in H1.
  pose proof (ParsePrototype_consumes n s1) as HP.
  destruct (ParsePrototype n s1) as [[P|] s2|]; cbn [bind] in H;
    [| |discriminate]; cbn [returns_in] in HP; unfold consumes in HP.
  - pose proof (ParseExpression_consumes n s2) as HE.
    destruct (ParseExpression n s2) as [[E|] s3|]; cbn [bind] in H;
      [| |discriminate]; cbn [returns_in] in HE; unfold consumes in HE;
      injection H as _ <-; lia.
  - injection H as _ <-. lia.
Qed.

Lemma ParseExtern_uses_token (n : nat) (s : state)
  (r : option PrototypeAST) (s' : state) :
  CurTok s <> tok_eof -> ParseExtern n s = Done r s' ->
  (tokens_left s' < tokens_left s)%nat.
Proof.
  intros Hc H.
  pose proof (getNextToken_uses_token s Hc) as H1.
  unfold ParseExtern in H.
  destruct (getNextToken s) as [t s1]; cbn [snd] in H1.
  pose proof (ParsePrototype_consumes n s1) as HP. rewrite H in HP.
  cbn [returns_in] in HP. unfold consumes in HP. lia.
Qed.

Lemma handlers_decrease (n : nat) (s s' : state) (u : unit) :
  CurTok s <> tok_eof ->
  (HandleDefinition n s = Done u s' ->
   (tokens_left s' < tokens_left s)%nat) /\
  (HandleExtern n s = Done u s' ->
   (tokens_left s' < tokens_left s)%nat) /\
  (HandleTopLevelExpression n s = Done u s' ->
   (tokens_left s' < tokens_left s)%nat).
Proof.
  intros Hc. repeat split.
  - unfold HandleDefinition. intros H.
    destruct (ParseDefinition n s) as [r s1|] eqn:HP; [|discriminate].
    apply (ParseDefinition_uses_token _ _ _ _ Hc) in HP. cbn [bind] in H.
    pose proof (getNextToken_consumes s1) as H1. unfold consumes in H1.
    destruct r; injection H as _ <-; [rewrite tokens_left_log|]; lia.
  - unfold HandleExtern. intros H.
    destruct (ParseExtern n s) as [r s1|] eqn:HP; [|discriminate].
    apply (ParseExtern_uses_token _ _ _ _ Hc) in HP. cbn [bind] in H.
    pose proof (getNextToken_consumes s1) as H1. unfold consumes in H1.
    destruct r; injection H as _ <-; [rewrite tokens_left_log|]; lia.
  - unfold HandleTopLevelExpression, ParseTopLevelExpr. intros H.
    destruct (ParseExpression n s) as [r s1|] eqn:HP; [|discriminate].
    apply ParseExpression_decreases in HP as (Hle & Hsome & Hnone).
    cbn [bind] in H. destruct r as [E|]; cbn [bind] in H;
      injection H as _ <-.
    + rewrite tokens_left_log. apply Hsome. discriminate.
    + pose proof (getNextToken_consumes s1) as H1. unfold consumes in H1.
      destruct (Hnone eq_refl) as [Hlt|Hcur]; [lia|].
      assert (H2 : (tokens_left (snd (getNextToken s1))
                    < tokens_left s1)%nat).
      { apply getNextToken_uses_token. now rewrite Hcur. }
      lia.
Qed.

(** X10. Each handler of [MainLoop], called on a token other than
    [tok_eof], leaves strictly fewer tokens: a construct that parsed used
    at least one, and after a failure the recovery step skips one, so the
    loop cannot stall on bad input. *)
Theorem handlers_use_token (n : nat) (s s' : state) (u : unit) :
  CurTok s <> tok_eof ->
  (HandleDefinition n s = Done u s' ->
   (tokens_left s' < tokens_left s)%nat) /\
  (HandleExtern n s = Done u s' ->
   (tokens_left s' < tokens_left s)%nat) /\
  (HandleTopLevelExpression n s = Done u s' ->
   (tokens_left s' < tokens_left s)%nat).
Proof.
  intros Hc. destruct (handlers_decrease n s s' u Hc) as (H1 & H2 & H3).
  repeat split; assumption.
Qed.

Lemma handlers_use_token_witness :
  (tokens_left (snd (getNextToken
                  (log "unknown token when expecting an expression"
                     (main_init ") x"))))
   < tokens_left (main_init ") x"))%nat.
Proof.
  refine (proj2 (proj2 (handlers_use_token 3 (main_init ") x")
            (snd (getNextToken
                    (log "unknown token when expecting an expression"
                       (main_init ") x")))) tt _)) _).
  - vm_compute. discriminate.
  - vm_compute. reflexivity.
Defined.

Lemma MainLoop_returns : forall (n : nat) (s : state),
  (3 * tokens_left s + 3 <= n)%nat ->
  exists s', MainLoop n s = Done tt s' /\ CurTok s' = tok_eof.
Proof.
  induction n as [|n IH]; intros s H; [lia|]. cbn [MainLoop].
  destruct (CurTok s =? tok_eof) eqn:E0.
  { apply Z.eqb_eq in E0. now exists (log line_break s). }
  apply Z.eqb_neq in E0.
  destruct (CurTok s =? semicolon).
  { apply IH.
    pose proof (getNextToken_uses_token (log prompt s) E0) as H1.
    rewrite tokens_left_log in H1. lia. }
  destruct (CurTok s =? tok_def).
  { destruct (returns_Done (HandleDefinition n s)) as ([] & s1 & Hh).
    - unfold HandleDefinition. apply returns_bind;
        [apply ParseDefinition_returns; lia|]. now intros [F|] s1 _.
    - rewrite Hh; cbn [bind]. apply IH.
      pose proof (proj1 (handlers_decrease n s s1 tt E0) Hh). lia. }
  destruct (CurTok s =? tok_extern).
  { destruct (returns_Done (HandleExtern n s)) as ([] & s1 & Hh).
    - unfold HandleExtern. apply returns_bind;
        [apply ParseExtern_returns; lia|]. now intros [F|] s1 _.
    - rewrite Hh; cbn [bind]. apply IH.
      pose proof (proj1 (proj2 (handlers_decrease n s s1 tt E0)) Hh). lia. }
  destruct (returns_Done (HandleTopLevelExpression n s)) as ([] & s1 & Hh).
  - unfold HandleTopLevelExpression. apply returns_bind;
      [apply ParseTopLevelExpr_returns; lia|]. now intros [F|] s1 _.
  - rewrite Hh; cbn [bind]. apply IH.
    pose proof (proj2 (proj2 (handlers_decrease n s s1 tt E0)) Hh). lia.
Qed.

(** X11. [main] terminates on every input: with a budget of three units
    per character of the input, plus six, it returns 0, and it does so
    with the lookahead on [tok_eof]. *)
Theorem main_returns (inp : string) (n : nat) :
  (3 * String.length inp + 6 <= n)%nat ->
  exists s', main n inp = Done 0 s' /\ CurTok s' = tok_eof.
Proof.
  intros H. unfold main; cbv zeta.
  set (s0 := log prompt (set_BinopPrecedence main_BinopPrecedence
                           (initial inp))).
  pose proof (getNextToken_tokens_left s0) as H1.
  assert (Hp : pending s0 = S (String.length inp)).
  { unfold s0, pending, pending_chars; cbn. lia. }
  destruct (MainLoop_returns n (snd (getNextToken s0))) as (s' & Hm & Hc);
    [lia|].
  exists s'. now rewrite Hm.
Qed.

Lemma main_returns_witness :
  (3 * String.length "def f(x) x+; 1 )" + 6 <= 60)%nat /\
  exists s', main 60 "def f(x) x+; 1 )" = Done 0 s' /\ CurTok s' = tok_eof.
Proof.
  assert (H : (3 * String.length "def f(x) x+; 1 )" + 6 <= 60)%nat)
    by (cbn; lia).
  split; [exact H|]. exact (main_returns "def f(x) x+; 1 )" 60 H).
Defined.

(* ===================================================================== *)
(** * What the lexer writes *)
(* ===================================================================== *)

(** X12. [gettok] writes nothing but the input position and the two side
    outputs: the error stream, the lookahead token and the precedence
    table are untouched; [NumVal] changes only when [tok_number] is
    returned, and [IdentifierStr] only when [tok_def], [tok_extern] or
    [tok_identifier] is. *)
Theorem gettok_writes (s : state) :
  stderr (snd (gettok s)) = stderr s /\
  CurTok (snd (gettok s)) = CurTok s /\
  BinopPrecedence (snd (gettok s)) = BinopPrecedence s /\
  (fst (gettok s) <> tok_number -> NumVal (snd (gettok s)) = NumVal s) /\
  (fst (gettok s) <> tok_def -> fst (gettok s) <> tok_extern ->
   fst (gettok s) <> tok_identifier ->
   IdentifierStr (snd (gettok s)) = IdentifierStr s).
Proof.
  pattern s, (gettok s). apply gettok_cases; clear s; cbn [fst snd].
  - intros s c inp id c' inp' _ _ _. repeat split; try reflexivity.
    unfold identifier_token.
    destruct (String.eqb id "def"); [intros H; now contradiction H|].
    destruct (String.eqb id "extern"); intros _ H; [now contradiction H|].
    intros H'; now contradiction H'.
  - intros s c inp num c' inp' _ _ _ _. repeat split; try reflexivity.
    intros H; now contradiction H.
  - intros s inp inp' _ _. now repeat split.
  - intros s inp c' inp' _ _ _ IH. exact IH.
  - intros s inp _. now repeat split.
  - intros s c inp _ _ _ _ _. now repeat split.
Qed.

Lemma gettok_writes_witness :
  NumVal (snd (gettok (set_NumVal 7%float (initial "abc 1")))) = 7%float.
Proof.
  refine (proj1 (proj2 (proj2 (proj2
            (gettok_writes (set_NumVal 7%float (initial "abc 1")))))) _).
  vm_compute. discriminate.
Defined.

(* ===================================================================== *)
(** * The precedence table *)
(* ===================================================================== *)

Lemma subscript_spec (m : gmap ascii Z) (c : ascii) :
  fst (subscript m c) = precedence_of m c /\
  forall k, precedence_of (snd (subscript m c)) k = precedence_of m k.
Proof.
  unfold subscript, precedence_of.
  destruct (m !! c) as [p|] eqn:E; cbn [fst snd default]; [now split|].
  split; [reflexivity|]. intros k.
  destruct (decide (c = k)) as [<-|Hne].
  - now rewrite lookup_insert_eq, E.
  - now rewrite lookup_insert_ne.
Qed.

Lemma GetTokPrecedence_same_precedences (s : state) :
  same_precedences s (snd (GetTokPrecedence s)).
Proof.
  unfold same_precedences, GetTokPrecedence. intros k.
  destruct (negb (isascii (CurTok s))); [reflexivity|].
  pose proof (subscript_spec (BinopPrecedence s)
                (char_of_int (CurTok s))) as [_ H].
  destruct (subscript _ _) as [p m]. cbn [snd] in H.
  destruct (p <=? 0); cbn [snd BinopPrecedence set_BinopPrecedence];
    apply H.
Qed.

Lemma gettok_BinopPrecedence (s : state) :
  BinopPrecedence (snd (gettok s)) = BinopPrecedence s.
Proof.
  pattern s, (gettok s). apply gettok_cases; clear s; cbn [fst snd];
    intros; try reflexivity.
  assumption.
Qed.

Lemma getNextToken_same_precedences (s : state) :
  same_precedences s (snd (getNextToken s)).
Proof.
  intros k. unfold getNextToken.
  pose proof (gettok_BinopPrecedence s) as H.
  destruct (gettok s) as [t s']. cbn [snd] in *.
  cbn [BinopPrecedence set_CurTok]. now rewrite H.
Qed.

Lemma same_precedences_refl (s : state) : same_precedences s s.
Proof. now intros k. Qed.

Lemma same_precedences_trans (a b c : state) :
  same_precedences a b -> same_precedences b c -> same_precedences a c.
Proof. intros H1 H2 k. now rewrite H2, H1. Qed.

Lemma log_same_precedences (msg : string) (s : state) :
  same_precedences s (log msg s).
Proof. now intros k. Qed.

(** X13. [GetTokPrecedence] answers the precedence the table gives the
    current token when the token is an ASCII character with a positive
    precedence, and -1 otherwise.  Parsing never changes the precedence of
    any character: [operator[]] may add entries to the table, all of them
    zero, so after [ParseDefinition], [ParseExtern], [ParseTopLevelExpr]
    or the whole of [MainLoop] every character has the precedence it had
    before. *)
Theorem precedences_are_kept :
  (forall s : state,
      fst (GetTokPrecedence s) =
      if isascii (CurTok s) &&
         (0 <? precedence_of (BinopPrecedence s) (char_of_int (CurTok s)))
      then precedence_of (BinopPrecedence s) (char_of_int (CurTok s))
      else -1)
  /\ (forall s : state, same_precedences s (snd (GetTokPrecedence s)))
  /\ (forall (n : nat) (s : state),
        returns_in same_precedences s (ParseDefinition n s) /\
        returns_in same_precedences s (ParseExtern n s) /\
        returns_in same_precedences s (ParseTopLevelExpr n s) /\
        returns_in same_precedences s (MainLoop n s)).
Proof.
  split; [|split].
  - intros s. unfold GetTokPrecedence.
    destruct (isascii (CurTok s)); cbn [negb andb]; [|reflexivity].
    pose proof (subscript_spec (BinopPrecedence s)
                  (char_of_int (CurTok s))) as [H _].
    destruct (subscript _ _) as [p m]. cbn [fst] in H. subst p.
    destruct (precedence_of _ _ <=? 0) eqn:E; cbn [fst].
    + apply Z.leb_le in E. apply Z.ltb_ge in E. now rewrite E.
    + apply Z.leb_gt in E. apply Z.ltb_lt in E. now rewrite E.
  - exact GetTokPrecedence_same_precedences.
  - intros n s. repeat split.
    + apply ParseDefinition_preserves;
        first [ exact same_precedences_refl | exact same_precedences_trans
              | exact getNextToken_same_precedences
              | exact GetTokPrecedence_same_precedences
              | exact log_same_precedences ].
    + apply ParseExtern_preserves;
        first [ exact same_precedences_refl | exact same_precedences_trans
              | exact getNextToken_same_precedences
              | exact GetTokPrecedence_same_precedences
              | exact log_same_precedences ].
    + apply ParseTopLevelExpr_preserves;
        first [ exact same_precedences_refl | exact same_precedences_trans
              | exact getNextToken_same_precedences
              | exact GetTokPrecedence_same_precedences
              | exact log_same_precedences ].
    + apply MainLoop_preserves;
        first [ exact same_precedences_refl | exact same_precedences_trans
              | exact getNextToken_same_precedences
              | exact GetTokPrecedence_same_precedences
              | exact log_same_precedences | apply same_precedences_refl ].
Qed.

(* ===================================================================== *)
(** * One line per construct *)
(* ===================================================================== *)




(* ===================================================================== *)
(** * The two collecting loops *)
(* ===================================================================== *)



(** X16. The parameter loop of a prototype stops at the first token that
    is not an identifier: when it returns it has read some number [k] of
    identifier tokens, one after the other, and then exactly one more
    token, which is not an identifier and is the lookahead it returns
    with; the names it adds are the texts of those [k] identifiers, in
    order.  What it collects does not depend on the names collected
    before: the result is the list it was given followed by the new
    names. *)
Theorem ParsePrototypeArgs_appends : forall (n : nat) (a : list string)
  (s : state) (r : list string) (s' : state),
  ParsePrototypeArgs n a s = Done r s' ->
  CurTok s' <> tok_identifier /\
  exists names, r = (a ++ names)%list /\
    (forall b, ParsePrototypeArgs n b s = Done (b ++ names)%list s') /\
    identifiers_ahead (length names) s /\
    names = names_read (length names) s /\
    s' = after_tokens (S (length names)) s.
Proof.
  induction n as [|n IH]; intros a s r s' H; [discriminate|].
  rewrite ParsePrototypeArgs_eq in H; cbv zeta in H.
  destruct (fst (getNextToken s) =? tok_identifier) eqn:E.
  - destruct (IH _ _ _ _ H) as (Hc & names & -> & Hb & Hid & Hn & Hs).
    split; [exact Hc|].
    exists (IdentifierStr (snd (getNextToken s)) :: names).
    cbn [length identifiers_ahead names_read after_tokens].
    repeat split.
    + now rewrite <- app_assoc.
    + intros b. rewrite ParsePrototypeArgs_eq; cbv zeta. rewrite E, Hb.
      now rewrite <- app_assoc.
    + rewrite getNextToken_CurTok, <- getNextToken_fst.
      now apply Z.eqb_eq.
    + exact Hid.
    + now rewrite <- Hn.
    + exact Hs.
  - injection H as <- <-. split.
    + rewrite getNextToken_CurTok, <- getNextToken_fst.
      now apply Z.eqb_neq.
    + exists []. cbn [length identifiers_ahead names_read after_tokens].
      repeat split; [now rewrite app_nil_r|].
      intros b. rewrite ParsePrototypeArgs_eq; cbv zeta. rewrite E.
      now rewrite app_nil_r.
Qed.

Lemma ParsePrototypeArgs_appends_witness :
  CurTok (after_tokens 4 (main_init "f(a b)")) <> tok_identifier /\
  exists names, ["a"; "b"] = ([] ++ names)%list /\
    (forall b, ParsePrototypeArgs 5 b (after_tokens 1 (main_init "f(a b)")) =
               Done (b ++ names)%list (after_tokens 4 (main_init "f(a b)")))
    /\ identifiers_ahead (length names) (after_tokens 1 (main_init "f(a b)"))
    /\ names = names_read (length names)
                 (after_tokens 1 (main_init "f(a b)"))
    /\ after_tokens 4 (main_init "f(a b)") =
       after_tokens (S (length names)) (after_tokens 1 (main_init "f(a b)")).
Proof.
  refine (ParsePrototypeArgs_appends 5 []
            (after_tokens 1 (main_init "f(a b)")) ["a"; "b"]
            (after_tokens 4 (main_init "f(a b)")) _).
  vm_compute. reflexivity.
Defined.

(* ===================================================================== *)
(** * Operators of the trees built *)
(* ===================================================================== *)

Lemma operators_known_binary (m : gmap ascii Z) (op : ascii)
  (l r : ExprAST) :
  0 < precedence_of m op -> operators_known m l -> operators_known m r ->
  operators_known m (BinaryExprAST op l r).
Proof.
  unfold operators_known. cbn [operators]. intros H Hl Hr.
  apply Forall_cons; split; [exact H|]. now apply Forall_app.
Qed.

Lemma operators_known_call (m : gmap ascii Z) (f : string)
  (args : list ExprAST) :
  Forall (operators_known m) args -> operators_known m (CallExprAST f args).
Proof.
  unfold operators_known. cbn [operators].
  induction 1 as [|e args He _ IH]; cbn [flat_map]; [constructor|].
  now apply Forall_app.
Qed.

Lemma GetTokPrecedence_known (s : state) :
  0 <= fst (GetTokPrecedence s) ->
  0 < precedence_of (BinopPrecedence s) (char_of_int (CurTok s)).
Proof.
  unfold GetTokPrecedence.
  destruct (negb (isascii (CurTok s))); cbn [fst]; [lia|].
  pose proof (subscript_spec (BinopPrecedence s)
                (char_of_int (CurTok s))) as [H _].
  destruct (subscript _ _) as [p m]. cbn [fst] in H. subst p.
  destruct (_ <=? 0) eqn:E; cbn [fst]; lia.
Qed.

Lemma ParsePrimary_same_precedences (n : nat) (s : state) :
  returns_in same_precedences s (ParsePrimary n s).
Proof.
  apply ParsePrimary_preserves;
    first [ exact same_precedences_refl | exact same_precedences_trans
          | exact getNextToken_same_precedences
          | exact GetTokPrecedence_same_precedences
          | exact log_same_precedences ].
Qed.

Lemma ParseExpression_same_precedences (n : nat) (s : state) :
  returns_in same_precedences s (ParseExpression n s).
Proof.
  apply ParseExpression_preserves;
    first [ exact same_precedences_refl | exact same_precedences_trans
          | exact getNextToken_same_precedences
          | exact GetTokPrecedence_same_precedences
          | exact log_same_precedences ].
Qed.

Lemma ParseBinOpRHS_same_precedences (n : nat) (p : Z) (l : ExprAST)
  (s : state) :
  returns_in same_precedences s (ParseBinOpRHS n p l s).
Proof.
  apply ParseBinOpRHS_preserves;
    first [ exact same_precedences_refl | exact same_precedences_trans
          | exact getNextToken_same_precedences
          | exact GetTokPrecedence_same_precedences
          | exact log_same_precedences ].
Qed.

Lemma parser_operators_known_all : forall n, parser_operators_known n.
Proof.
  induction n as [|n (IHe & IHp & IHpar & IHid & IHargs & IHrhs)].
  - repeat split; intros; discriminate.
  - repeat split.
    + (* ParseExpression *)
      intros m s e s' Hm H. rewrite ParseExpression_eq in H.
      pose proof (ParsePrimary_same_precedences n s) as Hs.
      destruct (ParsePrimary n s) as [[LHS|] s1|] eqn:HP; cbn [bind] in H;
        try discriminate.
      cbn [returns_in] in Hs.
      apply (IHrhs m 0 LHS s1 e s'); [| lia | now apply (IHp m s LHS s1) |
                                       exact H].
      intros k. rewrite (Hs k). apply Hm.
    + (* ParsePrimary *)
      intros m s e s' Hm H. rewrite ParsePrimary_eq in H.
      destruct (CurTok s =? tok_identifier); [now apply (IHid m s e s')|].
      destruct (CurTok s =? tok_number).
      { unfold ParseNumberExpr in H. destruct (getNextToken s).
        injection H as <- _. constructor. }
      destruct (CurTok s =? lparen); [now apply (IHpar m s e s')|].
      discriminate.
    + (* ParseParenExpr *)
      intros m s e s' Hm H. rewrite ParseParenExpr_eq in H.
      destruct (ParseExpression n _) as [[V|] s2|] eqn:HE; cbn [bind] in H;
        try discriminate.
      destruct (negb _); [discriminate|]. injection H as <- _.
      eapply IHe; [|exact HE].
      intros k. rewrite (getNextToken_same_precedences s k). apply Hm.
    + (* ParseIdentifierExpr *)
      intros m s e s' Hm H. rewrite ParseIdentifierExpr_eq in H.
      cbv zeta in H.
      destruct (negb (CurTok (snd (getNextToken s)) =? lparen)).
      { injection H as <- _. constructor. }
      set (s2 := snd (getNextToken (snd (getNextToken s)))) in *.
      assert (Hm2 : forall k, precedence_of (BinopPrecedence s2) k
                              = precedence_of m k).
      { intros k. unfold s2.
        rewrite (getNextToken_same_precedences _ k),
          (getNextToken_same_precedences s k). apply Hm. }
      destruct (negb (CurTok s2 =? rparen)).
      * destruct (ParseCallArgs n [] s2) as [[args|] s3|] eqn:HA;
          cbn [bind] in H; try discriminate.
        injection H as <- _. apply operators_known_call.
        now apply (IHargs m [] s2 args s3).
      * cbn [bind] in H. injection H as <- _.
        apply operators_known_call. constructor.
    + (* ParseCallArgs *)
      intros m a s r s' Hm Ha H. rewrite ParseCallArgs_eq in H.
      pose proof (ParseExpression_same_precedences n s) as Hs.
      destruct (ParseExpression n s) as [[Arg|] s1|] eqn:HE; cbn [bind] in H;
        try discriminate.
      cbn [returns_in] in Hs.
      assert (Ha' : Forall (operators_known m) (a ++ [Arg])).
      { apply Forall_app; split; [exact Ha|].
        constructor; [|constructor]. now apply (IHe m s Arg s1). }
      destruct (CurTok s1 =? rparen); [now injection H as <- _|].
      destruct (negb _); [discriminate|].
      eapply IHargs; [|exact Ha'|exact H].
      intros k. rewrite (getNextToken_same_precedences s1 k), (Hs k).
      apply Hm.
    + (* ParseBinOpRHS *)
      intros m p l s e s' Hm Hp Hl H. rewrite ParseBinOpRHS_eq in H.
      cbv zeta in H.
      destruct (fst (GetTokPrecedence s) <? p) eqn:E;
        [now injection H as <- _|].
      apply Z.ltb_ge in E.
      assert (Hop : 0 < precedence_of m (char_of_int (CurTok s))).
      { rewrite <- Hm. apply GetTokPrecedence_known. lia. }
      pose proof (f_equal v_CurTok (GetTokPrecedence_view s)) as Hcur.
      cbn [v_CurTok view_of] in Hcur. rewrite Hcur in H.
      pose proof (GetTokPrecedence_same_precedences s) as H1.
      set (s1 := snd (GetTokPrecedence s)) in *.
      pose proof (getNextToken_same_precedences s1) as H2.
      pose proof (ParsePrimary_same_precedences n (snd (getNextToken s1)))
        as H3.
      destruct (ParsePrimary n _) as [[RHS|] s3|] eqn:HP; cbn [bind] in H;
        try discriminate.
      cbn [returns_in] in H3.
      assert (Hm3 : forall k, precedence_of (BinopPrecedence s3) k
                              = precedence_of m k).
      { intros k. rewrite (H3 k), (H2 k), (H1 k). apply Hm. }
      assert (HR : operators_known m RHS).
      { apply (IHp m (snd (getNextToken s1)) RHS s3); [|exact HP].
        intros k. rewrite (H2 k), (H1 k). apply Hm. }
      pose proof (GetTokPrecedence_same_precedences s3) as H4.
      set (s4 := snd (GetTokPrecedence s3)) in *.
      assert (Hm4 : forall k, precedence_of (BinopPrecedence s4) k
                              = precedence_of m k).
      { intros k. rewrite (H4 k). apply Hm3. }
      destruct (_ <? fst (GetTokPrecedence s3)).
      * pose proof (ParseBinOpRHS_same_precedences n
                      (fst (GetTokPrecedence s) + 1) RHS s4) as H5.
        destruct (ParseBinOpRHS n (fst (GetTokPrecedence s) + 1) RHS s4)
          as [[RHS'|] s5|] eqn:HR'; cbn [bind] in H; try discriminate.
        cbn [returns_in] in H5.
        eapply IHrhs; [| exact Hp | | exact H].
        -- intros k. rewrite (H5 k). apply Hm4.
        -- apply operators_known_binary; [exact Hop|exact Hl|].
           eapply IHrhs; [exact Hm4| |exact HR|exact HR']. lia.
      * cbn [bind] in H.
        eapply IHrhs; [exact Hm4|exact Hp| |exact H].
        now apply operators_known_binary.
Qed.

(** X17. Every binary node of a tree returned by [ParseExpression] carries
    a character to which the precedence table gives a positive
    precedence: no other character ever becomes an operator. *)
Theorem ParseExpression_operators_known (n : nat) (s : state)
  (e : ExprAST) (s' : state) :
  ParseExpression n s = Done (Some e) s' ->
  operators_known (BinopPrecedence s) e.
Proof.
  intros H.
  now apply (proj1 (parser_operators_known_all n) (BinopPrecedence s) s e s').
Qed.

Lemma ParseExpression_operators_known_witness :
  operators_known (BinopPrecedence (main_init "1<2*f(3-4)"))
    (BinaryExprAST "<" (NumberExprAST 1)
       (BinaryExprAST "*" (NumberExprAST 2)
          (CallExprAST "f"
             [BinaryExprAST "-" (NumberExprAST 3) (NumberExprAST 4)]))).
Proof.
  refine (ParseExpression_operators_known 12 (main_init "1<2*f(3-4)") _
            (set_BinopPrecedence (<[")"%char := 0]> main_BinopPrecedence)
               (after_tokens 10 (main_init "1<2*f(3-4)"))) _).
  vm_compute. reflexivity.
Defined.
